(** * Coplanar waveguide media ([skrf/media/cpw.py])

    A shallow embedding of the [CPW] class and the verification of its
    specification.

    Numbers.  Python and numpy floats are idealised as real numbers: rounding
    and overflow are not modelled.  What the code distinguishes dynamically is
    kept: Python [int] against Python [float] (this is what [old_div] looks
    at), Python scalars against numpy scalars and arrays (a Python division by
    zero raises, a numpy one yields [inf] or [nan]), and [None].

    The operators, [old_div] and the numpy functions are those of Python,
    [past.utils] and numpy, written out for the values the class meets: ints,
    floats, one-dimensional float arrays and, in [Z0] and [gamma], complex
    numbers.  [Media.__init__] keeps [frequency] and [z0]. *)

From Stdlib Require Import Reals ZArith List Lia Lra Bool.
Import ListNotations.

Open Scope R_scope.

(** ** Outcomes of Python code *)

Inductive exn : Type :=
| AttributeError
| TypeError
| ValueError
| ZeroDivisionError.

Inductive result (A : Type) : Type :=
| Ok (a : A)
| Raise (e : exn).

Arguments Ok {A} a.
Arguments Raise {A} e.

Definition bind {A B : Type} (m : result A) (k : A -> result B) : result B :=
  match m with
  | Ok a => k a
  | Raise e => Raise e
  end.

Notation "x <- m ;; k" := (bind m (fun x => k))
  (at level 61, m at next level, right associativity).

(** ** numpy [float64]

    [NonFinite] stands for the IEEE special values ([inf], [-inf], [nan]);
    which one is not tracked.  A special value stays special through [+], [-],
    [*], [sqrt] and [log] and as a dividend; the two things this collapses (a
    finite number divided by an infinity, the order of an infinity) do not
    occur on the paths the theorems below follow: every quotient there has a
    finite divisor and every comparison finite operands.  The one statement
    that leaves the values of the elliptic integrals open compares two
    evaluations of the same expression and computes neither. *)

Inductive float : Type :=
| Finite (r : R)
| NonFinite.

Definition fadd (x y : float) : float :=
  match x, y with
  | Finite a, Finite b => Finite (a + b)
  | _, _ => NonFinite
  end.

Definition fsub (x y : float) : float :=
  match x, y with
  | Finite a, Finite b => Finite (a - b)
  | _, _ => NonFinite
  end.

Definition fmul (x y : float) : float :=
  match x, y with
  | Finite a, Finite b => Finite (a * b)
  | _, _ => NonFinite
  end.

(** [x / 0.0] is [inf], [-inf] or [nan], with a warning and no exception. *)
Definition fdiv (x y : float) : float :=
  match x, y with
  | Finite a, Finite b => if Req_dec_T b 0 then NonFinite else Finite (a / b)
  | _, _ => NonFinite
  end.

(** [numpy.sqrt]: [nan] below zero. *)
Definition fsqrt (x : float) : float :=
  match x with
  | Finite a => if Rlt_dec a 0 then NonFinite else Finite (sqrt a)
  | NonFinite => NonFinite
  end.

(** [numpy.log]: [-inf] at zero, [nan] below. *)
Definition flog (x : float) : float :=
  match x with
  | Finite a => if Rlt_dec 0 a then Finite (ln a) else NonFinite
  | NonFinite => NonFinite
  end.

Definition fpow (x : float) (n : nat) : float :=
  match x with
  | Finite a => Finite (a ^ n)
  | NonFinite => NonFinite
  end.

Definition fle (x y : float) : bool :=
  match x, y with
  | Finite a, Finite b => if Rle_dec a b then true else false
  | _, _ => false
  end.

Definition flt (x y : float) : bool :=
  match x, y with
  | Finite a, Finite b => if Rlt_dec a b then true else false
  | _, _ => false
  end.

(** ** Real-valued Python objects

    The values the fields [w], [s], [ep_r], [t], [rho] hold and the values
    computed from them before the complex factor comes in. *)

Inductive value : Type :=
| VNone
| VInt (z : Z)               (* Python int *)
| VFloat (r : R)             (* Python float *)
| VNp (x : float)            (* numpy.float64 scalar *)
| VArr (l : list float).     (* one-dimensional float64 ndarray *)

Inductive arith : Type := Add | Sub | Mul | Div.

Definition Zarith (op : arith) (a b : Z) : Z :=
  match op with
  | Add => (a + b)%Z
  | Sub => (a - b)%Z
  | Mul => (a * b)%Z
  | Div => 0%Z
  end.

Definition Rarith (op : arith) (a b : R) : R :=
  match op with
  | Add => a + b
  | Sub => a - b
  | Mul => a * b
  | Div => a / b
  end.

Definition farith (op : arith) : float -> float -> float :=
  match op with
  | Add => fadd
  | Sub => fsub
  | Mul => fmul
  | Div => fdiv
  end.

(** Arithmetic of two Python floats (an int operand is converted first); [/]
    is true division and raises on a zero divisor. *)
Definition py_float_arith (op : arith) (a b : R) : result value :=
  match op with
  | Div => if Req_dec_T b 0 then Raise ZeroDivisionError else Ok (VFloat (a / b))
  | _ => Ok (VFloat (Rarith op a b))
  end.

(** numpy operands: a scalar or an array. *)
Inductive ndarray : Type :=
| Scalar (x : float)
| Array (l : list float).

Definition as_ndarray (v : value) : option ndarray :=
  match v with
  | VNone => None
  | VInt z => Some (Scalar (Finite (IZR z)))
  | VFloat r => Some (Scalar (Finite r))
  | VNp x => Some (Scalar x)
  | VArr l => Some (Array l)
  end.

Fixpoint zip_with {A B C : Type} (g : A -> B -> C) (l1 : list A) (l2 : list B)
  : list C :=
  match l1, l2 with
  | a :: l1', b :: l2' => g a b :: zip_with g l1' l2'
  | _, _ => []
  end.

(** Broadcasting of one-dimensional operands: equal lengths pair up, a
    length-one array is stretched, anything else is a [ValueError]. *)
Definition broadcast {A B C : Type} (g : A -> B -> C)
  (l1 : list A) (l2 : list B) : result (list C) :=
  if Nat.eqb (length l1) (length l2) then Ok (zip_with g l1 l2)
  else
    match l1, l2 with
    | [a], _ => Ok (map (g a) l2)
    | _, [b] => Ok (map (fun a => g a b) l1)
    | _, _ => Raise ValueError
    end.

Definition np_arith (op : arith) (a b : ndarray) : result value :=
  match a, b with
  | Scalar x, Scalar y => Ok (VNp (farith op x y))
  | Scalar x, Array l => Ok (VArr (map (farith op x) l))
  | Array l, Scalar y => Ok (VArr (map (fun x => farith op x y) l))
  | Array l1, Array l2 => l <- broadcast (farith op) l1 l2 ;; Ok (VArr l)
  end.

(** The binary operators [+], [-], [*] and (with [from __future__ import
    division]) [/]. *)
Definition binop (op : arith) (a b : value) : result value :=
  match a, b with
  | VNone, _ | _, VNone => Raise TypeError
  | VInt x, VInt y =>
      match op with
      | Div => py_float_arith Div (IZR x) (IZR y)
      | _ => Ok (VInt (Zarith op x y))
      end
  | VInt x, VFloat y => py_float_arith op (IZR x) y
  | VFloat x, VInt y => py_float_arith op x (IZR y)
  | VFloat x, VFloat y => py_float_arith op x y
  | _, _ =>
      match as_ndarray a, as_ndarray b with
      | Some x, Some y => np_arith op x y
      | _, _ => Raise TypeError
      end
  end.

Definition add := binop Add.
Definition sub := binop Sub.
Definition mul := binop Mul.
Definition truediv := binop Div.

(** [past.utils.old_div]: floor division when both arguments are integers,
    true division otherwise. *)
Definition old_div (a b : value) : result value :=
  match a, b with
  | VInt x, VInt y =>
      if Z.eqb y 0 then Raise ZeroDivisionError else Ok (VInt (x / y))
  | _, _ => truediv a b
  end.

(** [v ** n] for a literal exponent [n]. *)
Definition pow (v : value) (n : nat) : result value :=
  match v with
  | VNone => Raise TypeError
  | VInt z => Ok (VInt (z ^ Z.of_nat n))
  | VFloat r => Ok (VFloat (r ^ n))
  | VNp x => Ok (VNp (fpow x n))
  | VArr l => Ok (VArr (map (fun x => fpow x n) l))
  end.

(** A numpy function of one argument: a Python scalar comes back as a numpy
    scalar, an array elementwise. *)
Definition ufunc (g : float -> float) (v : value) : result value :=
  match as_ndarray v with
  | None => Raise TypeError
  | Some (Scalar x) => Ok (VNp (g x))
  | Some (Array l) => Ok (VArr (map g l))
  end.

Definition np_sqrt := ufunc fsqrt.
Definition np_log := ufunc flog.

(** ** Comparisons and truth values *)

Inductive truthy : Type :=
| TBool (b : bool)
| TArr (l : list bool).

Definition compare (g : float -> float -> bool) (a b : value) : result truthy :=
  match as_ndarray a, as_ndarray b with
  | Some (Scalar x), Some (Scalar y) => Ok (TBool (g x y))
  | Some (Scalar x), Some (Array l) => Ok (TArr (map (g x) l))
  | Some (Array l), Some (Scalar y) => Ok (TArr (map (fun x => g x y) l))
  | Some (Array l1), Some (Array l2) => l <- broadcast g l1 l2 ;; Ok (TArr l)
  | _, _ => Raise TypeError
  end.

Definition le := compare fle.
Definition lt := compare flt.

(** What [if] and [and] ask of a comparison: an array of several elements
    has no truth value (nor has an empty one, as numpy now has it; older
    releases took it for false with a warning). *)
Definition truth (c : truthy) : result bool :=
  match c with
  | TBool b => Ok b
  | TArr [b] => Ok b
  | TArr _ => Raise ValueError
  end.

(** The test [if a < b < c:], that is [(a < b) and (b < c)]: the second
    comparison (with its operand) is evaluated only when the first holds. *)
Definition chained (c1 c2 : result truthy) : result bool :=
  x <- c1 ;;
  b <- truth x ;;
  if b then y <- c2 ;; truth y else Ok false.

(** ** Complex values

    [1j], and the complex arrays [Z0] and [gamma] return.  A complex number is
    the pair of its real and imaginary parts. *)

Definition cfloat : Type := (float * float)%type.

Inductive cvalue : Type :=
| CPy (re im : R)            (* Python complex *)
| CNp (c : cfloat)           (* numpy.complex128 scalar *)
| CArr (l : list cfloat).    (* one-dimensional complex128 ndarray *)

Inductive carith : Type := CAdd | CMul.

Definition Rcarith (op : carith) (x y : R * R) : R * R :=
  let (a, b) := x in
  let (c, d) := y in
  match op with
  | CAdd => (a + c, b + d)
  | CMul => (a * c - b * d, a * d + b * c)
  end.

Definition fcarith (op : carith) (x y : cfloat) : cfloat :=
  let (a, b) := x in
  let (c, d) := y in
  match op with
  | CAdd => (fadd a c, fadd b d)
  | CMul => (fsub (fmul a c) (fmul b d), fadd (fmul a d) (fmul b c))
  end.

Inductive cndarray : Type :=
| CScalar (c : cfloat)
| CArray (l : list cfloat).

Definition as_cndarray (c : cvalue) : cndarray :=
  match c with
  | CPy re im => CScalar (Finite re, Finite im)
  | CNp c => CScalar c
  | CArr l => CArray l
  end.

Definition cbinop (op : carith) (x y : cvalue) : result cvalue :=
  match x, y with
  | CPy a b, CPy c d => let (re, im) := Rcarith op (a, b) (c, d) in Ok (CPy re im)
  | _, _ =>
      match as_cndarray x, as_cndarray y with
      | CScalar c1, CScalar c2 => Ok (CNp (fcarith op c1 c2))
      | CScalar c1, CArray l => Ok (CArr (map (fcarith op c1) l))
      | CArray l, CScalar c2 => Ok (CArr (map (fun c1 => fcarith op c1 c2) l))
      | CArray l1, CArray l2 => l <- broadcast (fcarith op) l1 l2 ;; Ok (CArr l)
      end
  end.

(** A real operand of a complex operation is converted to a complex one with
    imaginary part zero. *)
Definition to_complex (v : value) : result cvalue :=
  match v with
  | VNone => Raise TypeError
  | VInt z => Ok (CPy (IZR z) 0)
  | VFloat r => Ok (CPy r 0)
  | VNp x => Ok (CNp (x, Finite 0))
  | VArr l => Ok (CArr (map (fun x => (x, Finite 0)) l))
  end.

(** [c * v], [c + v] and [v * c] for complex [c] and real [v]. *)
Definition cmul (c : cvalue) (v : value) : result cvalue :=
  c' <- to_complex v ;; cbinop CMul c c'.

Definition cadd (c : cvalue) (v : value) : result cvalue :=
  c' <- to_complex v ;; cbinop CAdd c c'.

Definition rmul (v : value) (c : cvalue) : result cvalue :=
  c' <- to_complex v ;; cbinop CMul c' c.

(** [len] of a complex value: only an array has one. *)
Definition clen (c : cvalue) : result nat :=
  match c with
  | CArr l => Ok (length l)
  | _ => Raise TypeError
  end.

(** [numpy.zeros(n)] and [numpy.ones(n, dtype='complex')]. *)
Definition zeros (n : nat) : value := VArr (repeat (Finite 0) n).
Definition ones_complex (n : nat) : cvalue := CArr (repeat (Finite 1, Finite 0) n).

(** Operators on computations, evaluated left to right as Python does. *)
Definition lift2 {A B C : Type} (g : A -> B -> result C)
  (m1 : result A) (m2 : result B) : result C :=
  a <- m1 ;; b <- m2 ;; g a b.

Definition lift1 {A B : Type} (g : A -> result B) (m : result A) : result B :=
  a <- m ;; g a.

Declare Scope py_scope.
Delimit Scope py_scope with py.
Notation "x .+ y" := (lift2 add x y) (at level 50, left associativity) : py_scope.
Notation "x .- y" := (lift2 sub x y) (at level 50, left associativity) : py_scope.
Notation "x .* y" := (lift2 mul x y) (at level 40, left associativity) : py_scope.
Notation "x ./ y" := (lift2 truediv x y) (at level 40, left associativity) : py_scope.
Notation "x .** n" := (lift1 (fun v => pow v n) x) (at level 30, right associativity) : py_scope.
Notation "x *c y" := (lift2 cmul x y) (at level 40, left associativity) : py_scope.
Notation "x +c y" := (lift2 cadd x y) (at level 50, left associativity) : py_scope.
Notation "x *r y" := (lift2 rmul x y) (at level 40, left associativity) : py_scope.
Notation "# z" := (Ok (VInt z)) (at level 9, format "# z") : py_scope.
Notation "$ r" := (Ok (VFloat r)) (at level 9, format "$ r") : py_scope.

(** ** The class *)

Record CPW : Type := mkCPW {
  frequency_f : list R;   (* self.frequency.f, the samples in Hz *)
  z0 : value;
  w : value;
  s : value;
  ep_r : value;
  t : value;
  rho : value
}.

(** [__init__]: an omitted argument takes its default. *)
Definition CPW_init (frequency : list R) (z0 w s ep_r t rho : option value) : CPW :=
  {| frequency_f := frequency;
     z0 := match z0 with Some v => v | None => VNone end;
     w := match w with Some v => v | None => VInt 70 end;
     s := match s with Some v => v | None => VInt 4 end;
     ep_r := match ep_r with Some v => v | None => VInt 3 end;
     t := match t with Some v => v | None => VNone end;
     rho := match rho with Some v => v | None => VNone end |}.

Definition f (self : CPW) : value := VArr (map Finite (frequency_f self)).

Definition is_none (v : value) : bool :=
  match v with
  | VNone => true
  | _ => false
  end.

Section Media.

(** [scipy.constants.epsilon_0] and [mu_0], [scipy.special.ellipk] on a finite
    argument, and [skrf.tlineFunctions.surface_resistivity(f, rho, mu_r)]. *)
Variables epsilon_0 mu_0 : R.
Variable ellipk : R -> float.
Variable surface_resistivity : value -> value -> value -> result value.

Definition pi : value := VFloat PI.

Definition ellipk_float (x : float) : float :=
  match x with
  | Finite r => ellipk r
  | NonFinite => NonFinite
  end.

Definition np_ellipk := ufunc ellipk_float.

Open Scope py_scope.

Definition ep_re (self : CPW) : result value :=
  v <- Ok (ep_r self) .+ #1 ;; old_div v (VFloat 2).

Definition k1 (self : CPW) : result value :=
  d <- Ok (w self) .+ #2 .* Ok (s self) ;; old_div (w self) d.

(** [2*(1+sqrt(k1))/(1-sqrt(k1))] *)
Definition log_argument (k1 : value) : result value :=
  #2 .* (#1 .+ np_sqrt k1) ./ (#1 .- np_sqrt k1).

Definition inv_sqrt2 : result value :=
  r <- np_sqrt (VInt 2) ;; old_div (VInt 1) r.

Definition K_ratio (self : CPW) : result value :=
  k1 <- k1 self ;;
  c <- chained (le (VInt 0) k1) (b <- inv_sqrt2 ;; le k1 b) ;;
  if c then
    l <- lift1 np_log (log_argument k1) ;; old_div pi l
  else
    c <- chained (b <- inv_sqrt2 ;; lt b k1) (le k1 (VInt 1)) ;;
    if c then
      l <- lift1 np_log (log_argument k1) ;; old_div l pi
    else Ok VNone.

Definition K := np_ellipk.
Definition K_p (x : value) : result value :=
  lift1 np_ellipk (lift1 np_sqrt (#1 .- Ok x .** 2)).

Definition alpha_conductor (self : CPW) : result value :=
  if is_none (rho self) || is_none (t self) then Raise AttributeError
  else
    let t := t self in
    k1 <- k1 self ;;
    ep_re <- ep_re self ;;
    r_s <- surface_resistivity (f self) (rho self) (VInt 1) ;;
    a <- old_div (w self) (VFloat 2) ;;
    b <- Ok (s self) .+ old_div (w self) (VFloat 2) ;;
    (Ok r_s .* np_sqrt ep_re
       ./ (#480 .* Ok pi .* K k1 .* K_p k1 .* (#1 .- Ok k1 .** 2)))
    .* ($1 ./ Ok a
          .* (Ok pi .+ lift1 np_log
                (lift2 old_div (#8 .* Ok pi .* Ok a .* (#1 .- Ok k1))
                               (Ok t .* (#1 .+ Ok k1))))
        .+ $1 ./ Ok b
          .* (Ok pi .+ lift1 np_log
                (lift2 old_div (#8 .* Ok pi .* Ok b .* (#1 .- Ok k1))
                               (Ok t .* (#1 .+ Ok k1))))).

Definition Z0 (self : CPW) : result cvalue :=
  ($30 .* Ok pi ./ lift1 np_sqrt (ep_re self) .* K_ratio self)
  *r Ok (ones_complex (length (frequency_f self))).

Definition gamma (self : CPW) : result cvalue :=
  beta <- Ok (CPy 0 1) *c #2 *c Ok pi *c Ok (f self)
          *c lift1 np_sqrt (ep_re self .* $epsilon_0 .* $mu_0) ;;
  n <- clen beta ;;
  alpha <- (if negb (is_none (rho self)) && negb (is_none (t self))
            then alpha_conductor self
            else Ok (zeros n)) ;;
  cadd beta alpha.

Close Scope py_scope.

End Media.

(** * Definitions used in the statements *)

(** The real number a finite scalar stands for, whichever way it is boxed. *)
Definition scalar_val (v : value) : option R :=
  match v with
  | VInt z => Some (IZR z)
  | VFloat r => Some r
  | VNp (Finite r) => Some r
  | _ => None
  end.

(** The same for the Python numbers alone. *)
Definition num_val (v : value) : option R :=
  match v with
  | VInt z => Some (IZR z)
  | VFloat r => Some r
  | _ => None
  end.

Definition is_int (v : value) : bool :=
  match v with
  | VInt _ => true
  | _ => false
  end.

Definition is_div (op : arith) : bool :=
  match op with
  | Div => true
  | _ => false
  end.

(** [evals i m x]: the computation [m] returns a finite scalar standing for
    the real [x], an int exactly when [i] holds. *)
Definition evals (i : bool) (m : result value) (x : R) : Prop :=
  exists v, m = Ok v /\ scalar_val v = Some x /\ is_int v = i.

(** The computation does not raise the missing-parameter error. *)
Definition not_missing {A : Type} (m : result A) : Prop := m <> Raise AttributeError.

(** The argument of the logarithm, [2*(1+sqrt(k1))/(1-sqrt(k1))], as a real. *)
Definition log_arg (k : R) : R := 2 * (1 + sqrt k) / (1 - sqrt k).

(** Every sample of [Z0 self] is the real number [r] (imaginary part zero). *)
Definition Z0_is (self : CPW) (r : R) : Prop :=
  Z0 self = Ok (CArr (repeat (Finite r, Finite 0) (length (frequency_f self)))).

(** The attenuation at one sample, as the specification writes it: [r_s] is
    the surface resistance there, [K1] and [K2] are [K(k)] and [K'(k)]. *)
Definition attenuation (r_s ep_re K1 K2 k a b t : R) : R :=
  r_s * sqrt ep_re / (480 * PI * K1 * K2 * (1 - k ^ 2))
  * (1 / a * (PI + ln (8 * PI * a * (1 - k) / (t * (1 + k))))
     + 1 / b * (PI + ln (8 * PI * b * (1 - k) / (t * (1 + k))))).

(** ** Stores used in the examples *)

(** [CPW(frequency)]: every other argument left out. *)
Definition default_CPW (frequency : list R) : CPW :=
  CPW_init frequency None None None None None None.

(** [CPW(frequency, w=70e-6, s=4e-6, ep_r=3)]. *)
Definition micro_CPW (frequency : list R) : CPW :=
  CPW_init frequency None (Some (VFloat (70 / 1000000))) (Some (VFloat (4 / 1000000)))
           (Some (VInt 3)) None None.

(** [CPW(frequency, w=70e-6, s=4e-6, ep_r=3, t=5e-7, rho=1.7e-8)]. *)
Definition lossy_CPW (frequency : list R) : CPW :=
  CPW_init frequency None (Some (VFloat (70 / 1000000))) (Some (VFloat (4 / 1000000)))
           (Some (VInt 3)) (Some (VFloat (5 / 10000000)))
           (Some (VFloat (17 / 1000000000))).

(** [CPW(frequency, w=w, s=s)] with float widths. *)
Definition float_CPW (frequency : list R) (w s : R) : CPW :=
  CPW_init frequency None (Some (VFloat w)) (Some (VFloat s)) None None None.

(** [CPW(frequency, w=numpy.array([1., 2.]))]. *)
Definition array_CPW (frequency : list R) : CPW :=
  CPW_init frequency None (Some (VArr [Finite 1; Finite 2])) None None None None.

(** The SI values of the two constants, and collaborators for the closed
    examples: an [ellipk] that is [pi/2] (its value at zero) everywhere and a
    surface resistance of one ohm at every sample. *)
Definition epsilon_0_SI : R := 8854187817 / 10 ^ 21.

Definition mu_0_SI : R := 4 * PI / 10 ^ 7.

Definition ellipk_at_zero (m : R) : float := Finite (PI / 2).


Definition unit_surface_resistivity (f rho mu_r : value) : result value :=
  match f with
  | VArr l => Ok (VArr (map (fun _ => Finite 1) l))
  | _ => Raise TypeError
  end.

(** ** Fixed-point arithmetic for the bounds on [exp]

    Eighteen decimals; a square is rounded up or down to the grid. *)
Definition scale : Z := 10 ^ 18.

Definition square_up (u : Z) : Z := ((u * u + scale - 1) / scale)%Z.

Definition square_down (l : Z) : Z := ((l * l) / scale)%Z.

Fixpoint iterate (n : nat) (g : Z -> Z) (u : Z) : Z :=
  match n with
  | O => u
  | S n' => iterate n' g (g u)
  end.

(** * Properties *)

(** ** The arithmetic of scalars *)

Lemma fdiv_finite (a b : R) : b <> 0 -> fdiv (Finite a) (Finite b) = Finite (a / b).
Proof. intros Hb; unfold fdiv; destruct (Req_dec_T b 0); [contradiction | reflexivity]. Qed.

Lemma fdiv_zero (a : R) : fdiv (Finite a) (Finite 0) = NonFinite.
Proof. unfold fdiv; destruct (Req_dec_T 0 0) as [_ | H]; [reflexivity | now destruct H]. Qed.

Lemma fsqrt_finite (a : R) : 0 <= a -> fsqrt (Finite a) = Finite (sqrt a).
Proof. intros Ha; unfold fsqrt; destruct (Rlt_dec a 0); [lra | reflexivity]. Qed.

Lemma fsqrt_negative (a : R) : a < 0 -> fsqrt (Finite a) = NonFinite.
Proof. intros Ha; unfold fsqrt; destruct (Rlt_dec a 0); [reflexivity | lra]. Qed.

Lemma flog_finite (a : R) : 0 < a -> flog (Finite a) = Finite (ln a).
Proof. intros Ha; unfold flog; destruct (Rlt_dec 0 a); [reflexivity | lra]. Qed.

Lemma fle_true (a b : R) : a <= b -> fle (Finite a) (Finite b) = true.
Proof. intros H; unfold fle; destruct (Rle_dec a b); [reflexivity | lra]. Qed.

Lemma fle_false (a b : R) : b < a -> fle (Finite a) (Finite b) = false.
Proof. intros H; unfold fle; destruct (Rle_dec a b); [lra | reflexivity]. Qed.

Lemma flt_true (a b : R) : a < b -> flt (Finite a) (Finite b) = true.
Proof. intros H; unfold flt; destruct (Rlt_dec a b); [reflexivity | lra]. Qed.


Lemma num_val_scalar (v : value) (x : R) : num_val v = Some x -> scalar_val v = Some x.
Proof. destruct v; simpl; congruence. Qed.

Lemma as_ndarray_scalar (v : value) (x : R) :
  scalar_val v = Some x -> as_ndarray v = Some (Scalar (Finite x)).
Proof.
  destruct v as [ | z | r | [r | ] | l]; simpl; intros H; inversion H; reflexivity.
Qed.

(** A numpy scalar on one side makes the operation a numpy one. *)
Lemma binop_np_r (op : arith) (a : value) (x : R) (y : float) :
  scalar_val a = Some x -> binop op a (VNp y) = Ok (VNp (farith op (Finite x) y)).
Proof.
  destruct a as [ | z | r | [r | ] | l]; simpl; intros H; inversion H; reflexivity.
Qed.

Lemma binop_np_l (op : arith) (b : value) (x : float) (y : R) :
  scalar_val b = Some y -> binop op (VNp x) b = Ok (VNp (farith op x (Finite y))).
Proof.
  destruct b as [ | z | r | [r | ] | l]; simpl; intros H; inversion H; reflexivity.
Qed.

Lemma old_div_np_r (a : value) (x : R) (y : float) :
  scalar_val a = Some x -> old_div a (VNp y) = Ok (VNp (fdiv (Finite x) y)).
Proof.
  intros H; destruct a; try discriminate; apply (binop_np_r Div _ _ _ H).
Qed.

Lemma old_div_np_l (b : value) (x : float) (y : R) :
  scalar_val b = Some y -> old_div (VNp x) b = Ok (VNp (fdiv x (Finite y))).
Proof. intros H; apply (binop_np_l Div _ _ _ H). Qed.

Lemma np_sqrt_scalar (v : value) (x : R) :
  scalar_val v = Some x -> np_sqrt v = Ok (VNp (fsqrt (Finite x))).
Proof.
  intros H; unfold np_sqrt, ufunc; rewrite (as_ndarray_scalar _ _ H); reflexivity.
Qed.

Lemma ufunc_nonfinite (g : float -> float) :
  g NonFinite = NonFinite -> ufunc g (VNp NonFinite) = Ok (VNp NonFinite).
Proof. intros H; unfold ufunc; simpl; rewrite H; reflexivity. Qed.

Lemma np_log_scalar (v : value) (x : R) :
  scalar_val v = Some x -> np_log v = Ok (VNp (flog (Finite x))).
Proof.
  intros H; unfold np_log, ufunc; rewrite (as_ndarray_scalar _ _ H); reflexivity.
Qed.

Lemma compare_scalar (g : float -> float -> bool) (a b : value) (x y : R) :
  scalar_val a = Some x -> scalar_val b = Some y ->
  compare g a b = Ok (TBool (g (Finite x) (Finite y))).
Proof.
  intros Ha Hb; unfold compare.
  rewrite (as_ndarray_scalar _ _ Ha), (as_ndarray_scalar _ _ Hb); reflexivity.
Qed.

(** Python arithmetic on two numbers, read in the reals: true division is the
    real quotient whenever the divisor is not zero. *)
Lemma truediv_num (a b : value) (x y : R) :
  num_val a = Some x -> num_val b = Some y -> y <> 0 ->
  truediv a b = Ok (VFloat (x / y)).
Proof.
  intros Ha Hb Hy.
  destruct a; try discriminate; destruct b; try discriminate;
    simpl in Ha, Hb; inversion Ha; inversion Hb; subst;
    unfold truediv, binop, py_float_arith;
    (destruct (Req_dec_T _ 0); [contradiction | reflexivity]).
Qed.

Lemma truediv_num_zero (a b : value) (x : R) :
  num_val a = Some x -> num_val b = Some 0 -> truediv a b = Raise ZeroDivisionError.
Proof.
  intros Ha Hb.
  destruct a; try discriminate; destruct b; try discriminate;
    simpl in Ha, Hb; inversion Ha; inversion Hb; subst;
    unfold truediv, binop, py_float_arith;
    (destruct (Req_dec_T _ 0) as [_ | H]; [reflexivity | now destruct H]).
Qed.

Lemma old_div_float (a b : value) (x y : R) :
  num_val a = Some x -> num_val b = Some y -> is_int a && is_int b = false ->
  y <> 0 -> old_div a b = Ok (VFloat (x / y)).
Proof.
  intros Ha Hb Hi Hy.
  destruct a; try discriminate; destruct b; try discriminate;
    apply (truediv_num _ _ _ _ Ha Hb Hy).
Qed.

(** [+], [-] and [*] of two numbers give the number the reals give; the result
    is an int exactly when both operands are. *)
Lemma binop_num (op : arith) (a b : value) (x y : R) :
  is_div op = false -> num_val a = Some x -> num_val b = Some y ->
  exists v, binop op a b = Ok v /\ num_val v = Some (Rarith op x y)
            /\ is_int v = is_int a && is_int b.
Proof.
  intros Hop Ha Hb.
  destruct a; try discriminate; destruct b; try discriminate;
    simpl in Ha, Hb; inversion Ha; inversion Hb; subst;
    destruct op; try discriminate; simpl; eexists; (split; [reflexivity | ]);
    simpl; rewrite ?plus_IZR, ?minus_IZR, ?mult_IZR; auto.
Qed.

(** ** [K_ratio] *)

Lemma sqrt2_pos : 0 < sqrt 2.
Proof. apply sqrt_lt_R0; lra. Qed.

Lemma inv_sqrt2_bounds : 0 < 1 / sqrt 2 < 1.
Proof.
  assert (H1 : 1 < sqrt 2) by (rewrite <- sqrt_1 at 1; apply sqrt_lt_1; lra).
  split.
  - apply Rdiv_lt_0_compat; lra.
  - apply Rmult_lt_reg_r with (sqrt 2); [lra | ].
    unfold Rdiv; rewrite Rmult_assoc, Rinv_l; lra.
Qed.

Lemma sqrt_lt_one (k : R) : 0 <= k < 1 -> 0 <= sqrt k < 1.
Proof.
  intros [H0 H1]; split; [apply sqrt_pos | ].
  rewrite <- sqrt_1; apply sqrt_lt_1; lra.
Qed.

Lemma inv_sqrt2_val : inv_sqrt2 = Ok (VNp (Finite (1 / sqrt 2))).
Proof.
  unfold inv_sqrt2.
  rewrite (np_sqrt_scalar (VInt 2) 2 eq_refl), fsqrt_finite by lra.
  cbn [bind]; rewrite (old_div_np_r (VInt 1) 1 _ eq_refl), fdiv_finite;
    [reflexivity | pose proof sqrt2_pos; lra].
Qed.

Lemma log_argument_val (kv : value) (k : R) :
  scalar_val kv = Some k -> 0 <= k < 1 ->
  log_argument kv = Ok (VNp (Finite (log_arg k))).
Proof.
  intros Hk Hr; pose proof (sqrt_lt_one k Hr) as Hs.
  unfold log_argument, lift2.
  rewrite (np_sqrt_scalar _ _ Hk), fsqrt_finite by lra.
  cbn [bind]; rewrite (binop_np_r Add (VInt 1) 1 _ eq_refl).
  cbn [bind farith fadd]; unfold mul.
  rewrite (binop_np_r Mul (VInt 2) 2 _ eq_refl).
  cbn [bind farith fmul]; unfold sub.
  rewrite (binop_np_r Sub (VInt 1) 1 _ eq_refl).
  cbn [bind farith fsub]; unfold truediv; cbn [binop as_ndarray np_arith farith].
  rewrite fdiv_finite by lra; reflexivity.
Qed.

Lemma log_argument_one (kv : value) :
  scalar_val kv = Some 1 -> log_argument kv = Ok (VNp NonFinite).
Proof.
  intros Hk; unfold log_argument, lift2.
  rewrite (np_sqrt_scalar _ _ Hk), fsqrt_finite, sqrt_1 by lra.
  cbn [bind]; rewrite (binop_np_r Add (VInt 1) 1 _ eq_refl).
  cbn [bind farith fadd]; unfold mul.
  rewrite (binop_np_r Mul (VInt 2) 2 _ eq_refl).
  cbn [bind farith fmul]; unfold sub.
  rewrite (binop_np_r Sub (VInt 1) 1 _ eq_refl).
  cbn [bind farith fsub]; unfold truediv; cbn [binop as_ndarray np_arith farith].
  replace (1 - 1) with 0 by ring; rewrite fdiv_zero; reflexivity.
Qed.

Lemma log_arg_ge_2 (k : R) : 0 <= k < 1 -> 2 <= log_arg k.
Proof.
  intros Hr; pose proof (sqrt_lt_one k Hr) as Hs; unfold log_arg.
  apply Rmult_le_reg_r with (1 - sqrt k); [lra | ].
  unfold Rdiv; rewrite Rmult_assoc, Rinv_l; lra.
Qed.

Lemma ln_log_arg_pos (k : R) : 0 <= k < 1 -> 0 < ln (log_arg k).
Proof.
  intros Hr; pose proof (log_arg_ge_2 k Hr).
  rewrite <- ln_1; apply ln_increasing; lra.
Qed.

(** The first test of [K_ratio], [0 <= k1 <= 1/sqrt(2)], on a scalar. *)
Lemma first_test (kv : value) (k : R) :
  scalar_val kv = Some k ->
  chained (le (VInt 0) kv) (b <- inv_sqrt2 ;; le kv b)
  = Ok (fle (Finite 0) (Finite k) && fle (Finite k) (Finite (1 / sqrt 2))).
Proof.
  intros Hk; unfold chained, le.
  rewrite (compare_scalar _ (VInt 0) kv 0 k eq_refl Hk); cbn [bind truth].
  destruct (fle (Finite 0) (Finite k)); [ | reflexivity].
  rewrite inv_sqrt2_val; cbn [bind].
  rewrite (compare_scalar _ kv (VNp (Finite (1 / sqrt 2))) k _ Hk eq_refl).
  reflexivity.
Qed.

(** The second one, [1/sqrt(2) < k1 <= 1]. *)
Lemma second_test (kv : value) (k : R) :
  scalar_val kv = Some k ->
  chained (b <- inv_sqrt2 ;; lt b kv) (le kv (VInt 1))
  = Ok (flt (Finite (1 / sqrt 2)) (Finite k) && fle (Finite k) (Finite 1)).
Proof.
  intros Hk; unfold chained, le, lt.
  rewrite inv_sqrt2_val; cbn [bind].
  rewrite (compare_scalar _ (VNp (Finite (1 / sqrt 2))) kv _ k eq_refl Hk).
  cbn [bind truth].
  destruct (flt (Finite (1 / sqrt 2)) (Finite k)); [ | reflexivity].
  rewrite (compare_scalar _ kv (VInt 1) k 1 Hk eq_refl); reflexivity.
Qed.

Section KRatio.

Variables (self : CPW) (kv : value) (k : R).
Hypothesis Hk1 : k1 self = Ok kv.
Hypothesis Hkv : scalar_val kv = Some k.

Lemma K_ratio_low :
  0 <= k <= 1 / sqrt 2 ->
  K_ratio self = Ok (VNp (Finite (PI / ln (log_arg k)))).
Proof.
  intros [H0 H1]; pose proof inv_sqrt2_bounds as Hb.
  unfold K_ratio; rewrite Hk1; cbn [bind].
  rewrite (first_test _ _ Hkv), !fle_true by lra; cbn [bind andb].
  unfold lift1; rewrite (log_argument_val _ _ Hkv) by lra; cbn [bind].
  rewrite (np_log_scalar (VNp (Finite (log_arg k))) _ eq_refl).
  rewrite flog_finite by (pose proof (log_arg_ge_2 k); lra).
  cbn [bind]; unfold pi; rewrite (old_div_np_r (VFloat PI) PI _ eq_refl).
  rewrite fdiv_finite; [reflexivity | ].
  pose proof (ln_log_arg_pos k); lra.
Qed.

Lemma K_ratio_high :
  1 / sqrt 2 < k < 1 ->
  K_ratio self = Ok (VNp (Finite (ln (log_arg k) / PI))).
Proof.
  intros [H0 H1]; pose proof inv_sqrt2_bounds as Hb.
  unfold K_ratio; rewrite Hk1; cbn [bind].
  rewrite (first_test _ _ Hkv), fle_true, fle_false by lra; cbn [bind andb].
  rewrite (second_test _ _ Hkv), flt_true, fle_true by lra; cbn [bind andb].
  unfold lift1; rewrite (log_argument_val _ _ Hkv) by lra; cbn [bind].
  rewrite (np_log_scalar (VNp (Finite (log_arg k))) _ eq_refl).
  rewrite flog_finite by (pose proof (log_arg_ge_2 k); lra).
  cbn [bind]; unfold pi; rewrite (old_div_np_l (VFloat PI) _ PI eq_refl).
  rewrite fdiv_finite; [reflexivity | pose proof PI_RGT_0; lra].
Qed.

Lemma K_ratio_one : k = 1 -> K_ratio self = Ok (VNp NonFinite).
Proof.
  intros H1; pose proof inv_sqrt2_bounds as Hb.
  unfold K_ratio; rewrite Hk1; cbn [bind].
  rewrite (first_test _ _ Hkv), fle_true, fle_false by lra; cbn [bind andb].
  rewrite (second_test _ _ Hkv), flt_true, fle_true by lra; cbn [bind andb].
  rewrite H1 in Hkv.
  unfold lift1; rewrite (log_argument_one _ Hkv); cbn [bind].
  unfold np_log; rewrite (ufunc_nonfinite flog) by reflexivity.
  cbn [bind]; unfold pi; rewrite (old_div_np_l (VFloat PI) _ PI eq_refl); reflexivity.
Qed.


End KRatio.

(** ** [ep_re] and [k1] *)

Lemma ep_re_num (self : CPW) (e : R) :
  num_val (ep_r self) = Some e -> ep_re self = Ok (VFloat ((e + 1) / 2)).
Proof.
  intros He; unfold ep_re, lift2; cbn [bind].
  destruct (binop_num Add (ep_r self) (VInt 1) e 1 eq_refl He eq_refl)
    as (v & Hv & Hn & _).
  unfold add; rewrite Hv; cbn [bind Rarith] in *.
  apply old_div_float with (x := e + 1) (y := 2); auto; try lra.
  apply andb_false_r.
Qed.

(** When [w] and [s] are both ints, [old_div] floors the quotient. *)
Lemma k1_int (self : CPW) (a b : Z) :
  w self = VInt a -> s self = VInt b -> (a + 2 * b <> 0)%Z ->
  k1 self = Ok (VInt (a / (a + 2 * b))).
Proof.
  intros Hw Hs Hd; unfold k1, lift2, add, mul; rewrite Hw, Hs.
  cbn [bind binop Zarith old_div].
  destruct (Z.eqb_spec (a + 2 * b) 0); [contradiction | reflexivity].
Qed.

(** Otherwise the division is the true one. *)
Lemma k1_float (self : CPW) (a b : R) :
  num_val (w self) = Some a -> num_val (s self) = Some b ->
  is_int (w self) && is_int (s self) = false -> a + 2 * b <> 0 ->
  k1 self = Ok (VFloat (a / (a + 2 * b))).
Proof.
  intros Hw Hs Hi Hd; unfold k1, lift2; cbn [bind].
  destruct (binop_num Mul (VInt 2) (s self) 2 b eq_refl eq_refl Hs)
    as (v & Hv & Hn & Hvi).
  unfold mul; rewrite Hv; cbn [bind Rarith] in *.
  destruct (binop_num Add (w self) v a (2 * b) eq_refl Hw Hn)
    as (v' & Hv' & Hn' & Hvi').
  unfold add; rewrite Hv'; cbn [bind Rarith] in *.
  apply old_div_float; auto.
  rewrite Hvi', Hvi; cbn [is_int andb].
  destruct (is_int (w self)); [exact Hi | reflexivity].
Qed.

Lemma k1_float_zero (self : CPW) (a b : R) :
  num_val (w self) = Some a -> num_val (s self) = Some b ->
  is_int (w self) && is_int (s self) = false -> a + 2 * b = 0 ->
  k1 self = Raise ZeroDivisionError.
Proof.
  intros Hw Hs Hi Hd; unfold k1, lift2; cbn [bind].
  destruct (binop_num Mul (VInt 2) (s self) 2 b eq_refl eq_refl Hs)
    as (v & Hv & Hn & Hvi).
  unfold mul; rewrite Hv; cbn [bind Rarith] in *.
  destruct (binop_num Add (w self) v a (2 * b) eq_refl Hw Hn)
    as (v' & Hv' & Hn' & Hvi').
  unfold add; rewrite Hv'; cbn [bind Rarith] in *.
  rewrite Hd in Hn'.
  assert (Hni : is_int (w self) && is_int v' = false).
  { rewrite Hvi', Hvi; cbn [is_int andb].
    destruct (is_int (w self)); [exact Hi | reflexivity]. }
  destruct (w self); try discriminate; destruct v'; try discriminate;
    apply (truediv_num_zero _ _ _ Hw Hn').
Qed.

(** Positive scalar widths keep the modulus the code computes in [[0, 1)]:
    it is [w/(w+2s)], or [0] when both widths are ints. *)
Lemma k1_valid (self : CPW) (a b : R) :
  num_val (w self) = Some a -> num_val (s self) = Some b -> 0 < a -> 0 < b ->
  exists kv k, k1 self = Ok kv /\ scalar_val kv = Some k /\ 0 <= k < 1.
Proof.
  intros Hw Hs Ha Hb.
  destruct (is_int (w self) && is_int (s self)) eqn:Hi.
  - destruct (w self) as [ | x | | | ] eqn:Ew; try discriminate.
    destruct (s self) as [ | y | | | ] eqn:Es; try discriminate.
    simpl in Hw, Hs; inversion Hw; inversion Hs; subst.
    apply lt_IZR in Ha, Hb.
    exists (VInt (x / (x + 2 * y))), 0.
    rewrite (k1_int self x y Ew Es) by lia.
    rewrite Z.div_small by lia; repeat split; simpl; auto; lra.
  - exists (VFloat (a / (a + 2 * b))), (a / (a + 2 * b)).
    rewrite (k1_float self a b Hw Hs Hi) by lra.
    repeat split; auto.
    + apply Rlt_le, Rdiv_lt_0_compat; lra.
    + apply Rmult_lt_reg_r with (a + 2 * b); [lra | ].
      unfold Rdiv; rewrite Rmult_assoc, Rinv_l; lra.
Qed.

(** ** Arrays *)

Lemma zip_with_repeat {A B C : Type} (g : A -> B -> C) (l : list A) (b : B) (n : nat) :
  length l = n -> zip_with g l (repeat b n) = map (fun a => g a b) l.
Proof.
  intros <-; induction l as [ | a l IH]; simpl; [ | rewrite IH]; reflexivity.
Qed.

Lemma map_repeat_const {A B : Type} (g : A -> B) (a : A) (n : nat) :
  map g (repeat a n) = repeat (g a) n.
Proof. induction n as [ | n IH]; simpl; [ | rewrite IH]; reflexivity. Qed.

Lemma broadcast_same {A B C : Type} (g : A -> B -> C) (l1 : list A) (l2 : list B) :
  length l1 = length l2 -> broadcast g l1 l2 = Ok (zip_with g l1 l2).
Proof. intros H; unfold broadcast; rewrite H, Nat.eqb_refl; reflexivity. Qed.

Lemma zip_with_length {A B C : Type} (g : A -> B -> C) (l1 : list A) (l2 : list B) :
  length l1 = length l2 -> length (zip_with g l1 l2) = length l1.
Proof.
  revert l2; induction l1 as [ | a l1 IH]; intros [ | b l2]; simpl; intros H;
    try discriminate; [reflexivity | ].
  rewrite IH; auto.
Qed.

Lemma zip_with_map_l {A A' B C : Type} (g : A' -> B -> C) (h : A -> A') l1 l2 :
  zip_with g (map h l1) l2 = zip_with (fun a b => g (h a) b) l1 l2.
Proof.
  revert l2; induction l1 as [ | a l1 IH]; intros [ | b l2]; simpl; auto.
  rewrite IH; reflexivity.
Qed.

Lemma zip_with_map_r {A B B' C : Type} (g : A -> B' -> C) (h : B -> B') l1 l2 :
  zip_with g l1 (map h l2) = zip_with (fun a b => g a (h b)) l1 l2.
Proof.
  revert l2; induction l1 as [ | a l1 IH]; intros [ | b l2]; simpl; auto.
  rewrite IH; reflexivity.
Qed.

Lemma map_zip_with {A B C D : Type} (g : A -> B -> C) (h : C -> D) l1 l2 :
  map h (zip_with g l1 l2) = zip_with (fun a b => h (g a b)) l1 l2.
Proof.
  revert l2; induction l1 as [ | a l1 IH]; intros [ | b l2]; simpl; auto.
  rewrite IH; reflexivity.
Qed.

Lemma zip_with_ext_in {A B C : Type} (g h : A -> B -> C) (P : B -> Prop) l1 l2 :
  Forall P l2 -> (forall a b, P b -> g a b = h a b) ->
  zip_with g l1 l2 = zip_with h l1 l2.
Proof.
  intros HP Hgh; revert l1; induction HP as [ | b l2 Hb HP IH]; intros [ | a l1];
    simpl; auto.
  rewrite IH, Hgh; auto.
Qed.

(** ** [Z0] *)

(** With a numeric [ep_r] above [-1] and a finite ratio [c], every sample of
    [Z0] is [30*pi/sqrt(ep_re) * c + 0j]. *)
Lemma Z0_value (self : CPW) (e c : R) :
  num_val (ep_r self) = Some e -> -1 < e ->
  K_ratio self = Ok (VNp (Finite c)) ->
  Z0 self = Ok (CArr (repeat (Finite (30 * PI / sqrt ((e + 1) / 2) * c), Finite 0)
                             (length (frequency_f self)))).
Proof.
  intros He Hpos HK.
  assert (Hs : 0 < sqrt ((e + 1) / 2)) by (apply sqrt_lt_R0; lra).
  unfold Z0, lift2, lift1, pi, mul, truediv.
  cbn [bind binop py_float_arith Rarith].
  rewrite (ep_re_num self e He); cbn [bind].
  rewrite (np_sqrt_scalar (VFloat ((e + 1) / 2)) _ eq_refl), fsqrt_finite by lra.
  cbn [bind binop as_ndarray np_arith farith]; rewrite fdiv_finite by lra.
  rewrite HK; cbn [bind binop as_ndarray np_arith farith fmul].
  unfold rmul, ones_complex; cbn [bind to_complex cbinop as_cndarray].
  rewrite map_repeat_const; cbn [fcarith fmul fsub fadd].
  do 3 f_equal; f_equal; f_equal; ring.
Qed.


(** ** [alpha_conductor] and [gamma] *)

Section Propagation.

Variables epsilon_0 mu_0 : R.
Variable ellipk : R -> float.
Variable surface_resistivity : value -> value -> value -> result value.

Local Abbreviation alpha_conductor := (alpha_conductor ellipk surface_resistivity).
Local Abbreviation gamma := (gamma epsilon_0 mu_0 ellipk surface_resistivity).

Lemma alpha_conductor_missing (self : CPW) :
  rho self = VNone \/ t self = VNone -> alpha_conductor self = Raise AttributeError.
Proof.
  intros [H | H]; unfold alpha_conductor; rewrite H;
    [ | rewrite orb_true_r]; reflexivity.
Qed.

(** The phase term; [0 * x] is kept out of the statement, not out of the
    computation: the real part of [1j*2*pi*f*sqrt(..)] is a sum of products
    with a zero factor. *)
Lemma gamma_lossless (self : CPW) (e : R) :
  rho self = VNone \/ t self = VNone ->
  num_val (ep_r self) = Some e ->
  0 <= (e + 1) / 2 * epsilon_0 * mu_0 ->
  gamma self
  = Ok (CArr (map (fun fr => (Finite 0,
                              Finite (2 * PI * fr * sqrt ((e + 1) / 2 * epsilon_0 * mu_0))))
                  (frequency_f self))).
Proof.
  intros Hnone He Hpos.
  assert (Hc : negb (is_none (rho self)) && negb (is_none (t self)) = false)
    by (destruct Hnone as [H | H]; rewrite H; [ | rewrite andb_false_r]; reflexivity).
  unfold gamma, lift2, lift1, pi, f, mul.
  cbn [bind cmul to_complex cbinop Rcarith as_cndarray].
  rewrite (ep_re_num self e He).
  cbn [bind binop py_float_arith Rarith].
  rewrite (np_sqrt_scalar (VFloat ((e + 1) / 2 * epsilon_0 * mu_0)) _ eq_refl).
  rewrite fsqrt_finite by lra.
  cbn [bind cmul to_complex cbinop Rcarith as_cndarray clen].
  rewrite Hc, !length_map; unfold zeros, cadd.
  cbn [bind to_complex cbinop as_cndarray]; rewrite map_repeat_const.
  rewrite broadcast_same by (rewrite !length_map, repeat_length; reflexivity).
  cbn [bind]; rewrite zip_with_repeat, !map_map by (rewrite !length_map; reflexivity).
  do 2 f_equal; apply map_ext; intros fr.
  cbn [fcarith fmul fsub fadd]; f_equal; f_equal; ring.
Qed.

(** The same with a per-frequency array for [ep_r]: sample by sample. *)
Lemma gamma_lossless_array (self : CPW) (es : list R) :
  rho self = VNone \/ t self = VNone ->
  ep_r self = VArr (map Finite es) ->
  length es = length (frequency_f self) ->
  Forall (fun e => -1 <= e) es -> 0 <= epsilon_0 -> 0 <= mu_0 ->
  gamma self
  = Ok (CArr (zip_with
                (fun fr e => (Finite 0,
                              Finite (2 * PI * fr * sqrt ((e + 1) / 2 * epsilon_0 * mu_0))))
                (frequency_f self) es)).
Proof.
  intros Hnone He Hlen Hge He0 Hm0.
  assert (Hc : negb (is_none (rho self)) && negb (is_none (t self)) = false)
    by (destruct Hnone as [H | H]; rewrite H; [ | rewrite andb_false_r]; reflexivity).
  unfold gamma, ep_re, lift2, lift1, pi, f, mul, add, np_sqrt, ufunc.
  rewrite He, Hc.
  cbn [bind cmul to_complex cbinop Rcarith as_cndarray binop as_ndarray np_arith
       old_div truediv farith].
  rewrite !map_map.
  rewrite broadcast_same by (rewrite !length_map; auto).
  cbn [bind clen]; unfold zeros, cadd.
  cbn [bind to_complex cbinop as_cndarray]; rewrite map_repeat_const.
  rewrite broadcast_same
    by (rewrite repeat_length, zip_with_length; rewrite !length_map; auto).
  cbn [bind]; rewrite zip_with_repeat
    by (rewrite zip_with_length; rewrite !length_map; auto).
  rewrite map_zip_with, zip_with_map_l, zip_with_map_r.
  do 2 f_equal; apply zip_with_ext_in with (P := fun e => -1 <= e); [exact Hge | ].
  intros fr e Hee.
  assert (0 <= (e + 1) / 2 * epsilon_0 * mu_0)
    by (apply Rmult_le_pos; [apply Rmult_le_pos | ]; lra).
  cbn [fadd fmul]; rewrite fdiv_finite by lra; cbn [fmul].
  rewrite fsqrt_finite by assumption.
  cbn [fcarith fmul fsub fadd]; f_equal; f_equal; ring.
Qed.

(** C4: when [t] or [rho] is unset, the propagation constant at the sample
    [fr] has real part exactly zero and imaginary part
    [2*pi*fr*sqrt(ep_re*epsilon_0*mu_0)] with [ep_re = (ep_r+1)/2], for a
    scalar [ep_r] and, sample by sample, for a per-frequency array; stated
    for [ep_r] not below [-1] and non-negative constants, so that the square
    root is one of a non-negative number. *)
Theorem gamma_without_loss (self : CPW) :
  rho self = VNone \/ t self = VNone -> 0 <= epsilon_0 -> 0 <= mu_0 ->
  (forall e : R,
     num_val (ep_r self) = Some e -> -1 <= e ->
     ep_re self = Ok (VFloat ((e + 1) / 2)) /\
     gamma self
     = Ok (CArr (map (fun fr =>
                        (Finite 0,
                         Finite (2 * PI * fr * sqrt ((e + 1) / 2 * epsilon_0 * mu_0))))
                     (frequency_f self)))) /\
  (forall es : list R,
     ep_r self = VArr (map Finite es) -> length es = length (frequency_f self) ->
     Forall (fun e => -1 <= e) es ->
     gamma self
     = Ok (CArr (zip_with
                   (fun fr e =>
                      (Finite 0,
                       Finite (2 * PI * fr * sqrt ((e + 1) / 2 * epsilon_0 * mu_0))))
                   (frequency_f self) es))).
Proof.
  intros Hnone He0 Hm0; split.
  - intros e He Hge; split; [apply ep_re_num, He | ].
    apply gamma_lossless; auto.
    apply Rmult_le_pos; [apply Rmult_le_pos | ]; lra.
  - intros es He Hlen Hge; apply gamma_lossless_array; auto.
Qed.

Lemma not_missing_bind {A B : Type} (m : result A) (k : A -> result B) :
  not_missing m -> (forall a, not_missing (k a)) -> not_missing (bind m k).
Proof.
  unfold not_missing; intros Hm Hk; destruct m as [a | e]; cbn [bind];
    [apply Hk | congruence].
Qed.

Lemma not_missing_broadcast {A B C : Type} (g : A -> B -> C) l1 l2 :
  not_missing (broadcast g l1 l2).
Proof.
  unfold not_missing, broadcast; destruct (Nat.eqb _ _); [discriminate | ].
  destruct l1 as [ | a [ | a' l1]]; destruct l2 as [ | b [ | b' l2]]; discriminate.
Qed.

Lemma not_missing_binop (op : arith) (a b : value) : not_missing (binop op a b).
Proof.
  unfold not_missing.
  destruct a as [ | x | x | x | l1]; destruct b as [ | y | y | y | l2];
    destruct op; cbn [binop py_float_arith as_ndarray np_arith];
    try discriminate;
    try (destruct (Req_dec_T _ 0); discriminate);
    apply not_missing_bind; try (intros; discriminate);
    apply not_missing_broadcast.
Qed.

Lemma not_missing_old_div (a b : value) : not_missing (old_div a b).
Proof.
  destruct a as [ | x | x | x | l1]; destruct b as [ | y | y | y | l2];
    try apply (not_missing_binop Div).
  unfold not_missing, old_div; destruct (Z.eqb y 0); discriminate.
Qed.

Lemma not_missing_ufunc (g : float -> float) (v : value) : not_missing (ufunc g v).
Proof.
  unfold not_missing, ufunc; destruct v as [ | x | x | x | l]; discriminate.
Qed.

Lemma not_missing_cbinop (op : carith) (x y : cvalue) : not_missing (cbinop op x y).
Proof.
  unfold not_missing.
  destruct x as [a b | c | l1]; destruct y as [c' d | c' | l2];
    cbn [cbinop as_cndarray]; try discriminate;
    try (destruct (Rcarith op (a, b) (c', d)); discriminate).
  apply not_missing_bind; [apply not_missing_broadcast | intros; discriminate].
Qed.

Lemma not_missing_complex (op : carith) (c : cvalue) (v : value) :
  not_missing (c' <- to_complex v ;; cbinop op c c').
Proof.
  apply not_missing_bind; [destruct v; discriminate | ].
  intros; apply not_missing_cbinop.
Qed.

Lemma gamma_not_missing (self : CPW) :
  rho self = VNone \/ t self = VNone -> not_missing (gamma self).
Proof.
  intros Hnone.
  assert (Hc : negb (is_none (rho self)) && negb (is_none (t self)) = false)
    by (destruct Hnone as [H | H]; rewrite H; [ | rewrite andb_false_r]; reflexivity).
  unfold gamma; rewrite Hc.
  repeat first
    [ apply not_missing_bind; [ | intros ]
    | apply not_missing_binop | apply not_missing_old_div
    | apply not_missing_ufunc | apply not_missing_complex
    | discriminate
    | apply not_missing_cbinop
    | match goal with
      | |- not_missing (clen ?c) => destruct c; discriminate
      | |- not_missing (to_complex ?v) => destruct v; discriminate
      end ].
Qed.

(** C3, amended: with [t] or [rho] unset the conductor-loss accessor raises
    the missing-parameter error ([AttributeError]) and returns nothing; the
    propagation constant does not ask for the conductor loss then, so it
    never raises that error. *)
Theorem conductor_loss_missing_parameter (self : CPW) :
  rho self = VNone \/ t self = VNone ->
  alpha_conductor self = Raise AttributeError /\
  gamma self <> Raise AttributeError.
Proof.
  intros H; split; [apply alpha_conductor_missing | apply gamma_not_missing]; exact H.
Qed.

End Propagation.

(** ** The claims on [K_ratio] *)

Lemma inv_sqrt2_approx : 7 / 10 < 1 / sqrt 2 < 3 / 4.
Proof.
  assert (Hl : 4 / 3 < sqrt 2).
  { rewrite <- (sqrt_square (4 / 3)) by lra; apply sqrt_lt_1; lra. }
  assert (Hu : sqrt 2 < 10 / 7).
  { rewrite <- (sqrt_square (10 / 7)) by lra; apply sqrt_lt_1; lra. }
  split.
  - apply Rmult_lt_reg_r with (sqrt 2); [lra | ].
    unfold Rdiv at 2; rewrite Rmult_assoc, Rinv_l; lra.
  - apply Rmult_lt_reg_r with (sqrt 2); [lra | ].
    unfold Rdiv at 1; rewrite Rmult_assoc, Rinv_l; lra.
Qed.

Lemma micro_k1 (fs : list R) : k1 (micro_CPW fs) = Ok (VFloat (35 / 39)).
Proof.
  rewrite (k1_float (micro_CPW fs) (70 / 1000000) (4 / 1000000));
    try reflexivity; try lra.
  do 2 f_equal; lra.
Qed.

(** The argument of the logarithm grows with the modulus, and so does the
    logarithm: the first branch, [pi] over it, falls and the second rises. *)
Lemma log_arg_alt (k : R) : 0 <= k < 1 -> log_arg k = 4 / (1 - sqrt k) - 2.
Proof.
  intros Hr; pose proof (sqrt_lt_one k Hr); unfold log_arg; field; lra.
Qed.

Lemma log_arg_increasing (k k' : R) : 0 <= k -> k < k' -> k' < 1 -> log_arg k < log_arg k'.
Proof.
  intros H0 Hlt H1.
  assert (Hs : sqrt k < sqrt k') by (apply sqrt_lt_1; lra).
  pose proof (sqrt_lt_one k) as Hk; pose proof (sqrt_lt_one k') as Hk'.
  rewrite !log_arg_alt by lra.
  assert (/ (1 - sqrt k) < / (1 - sqrt k')).
  { apply Rinv_lt_contravar; [apply Rmult_lt_0_compat | ]; lra. }
  unfold Rdiv; lra.
Qed.

Lemma ln_log_arg_increasing (k k' : R) :
  0 <= k -> k < k' -> k' < 1 -> ln (log_arg k) < ln (log_arg k').
Proof.
  intros H0 Hlt H1; apply ln_increasing.
  - pose proof (log_arg_ge_2 k); lra.
  - apply log_arg_increasing; assumption.
Qed.

Lemma first_branch_decreasing (k k' : R) :
  0 <= k -> k < k' -> k' < 1 -> PI / ln (log_arg k') < PI / ln (log_arg k).
Proof.
  intros H0 Hlt H1.
  pose proof (ln_log_arg_increasing k k' H0 Hlt H1).
  pose proof (ln_log_arg_pos k); pose proof (ln_log_arg_pos k').
  unfold Rdiv; apply Rmult_lt_compat_l; [apply PI_RGT_0 | ].
  apply Rinv_lt_contravar; [apply Rmult_lt_0_compat | ]; lra.
Qed.

Lemma second_branch_increasing (k k' : R) :
  0 <= k -> k < k' -> k' < 1 -> ln (log_arg k) / PI < ln (log_arg k') / PI.
Proof.
  intros H0 Hlt H1.
  pose proof (ln_log_arg_increasing k k' H0 Hlt H1).
  unfold Rdiv; apply Rmult_lt_compat_r; [apply Rinv_0_lt_compat, PI_RGT_0 | lra].
Qed.

Lemma float_k1 (fs : list R) (a b : R) :
  a + 2 * b <> 0 -> k1 (float_CPW fs a b) = Ok (VFloat (a / (a + 2 * b))).
Proof. intros H; apply k1_float; try reflexivity; exact H. Qed.

(** C5, on the code: the ratio is not increasing over (0, 1).  With
    [w = 1., s = 7.5] the modulus is [1/16], with [w = 1., s = 1.5] it is
    [1/4]; both take the first branch and the larger modulus gets the smaller
    ratio. *)
Theorem K_ratio_falls_on_first_branch (fs : list R) :
  exists ka kb ra rb,
    k1 (float_CPW fs 1 (15 / 2)) = Ok (VFloat ka) /\
    k1 (float_CPW fs 1 (3 / 2)) = Ok (VFloat kb) /\
    K_ratio (float_CPW fs 1 (15 / 2)) = Ok (VNp (Finite ra)) /\
    K_ratio (float_CPW fs 1 (3 / 2)) = Ok (VNp (Finite rb)) /\
    ka = 1 / 16 /\ kb = 1 / 4 /\ rb < ra.
Proof.
  pose proof inv_sqrt2_approx as Hb.
  exists (1 / (1 + 2 * (15 / 2))), (1 / (1 + 2 * (3 / 2))).
  exists (PI / ln (log_arg (1 / (1 + 2 * (15 / 2))))).
  exists (PI / ln (log_arg (1 / (1 + 2 * (3 / 2))))).
  assert (Ha : k1 (float_CPW fs 1 (15 / 2)) = Ok (VFloat (1 / (1 + 2 * (15 / 2)))))
    by (apply float_k1; lra).
  assert (Hk : k1 (float_CPW fs 1 (3 / 2)) = Ok (VFloat (1 / (1 + 2 * (3 / 2)))))
    by (apply float_k1; lra).
  repeat split; try assumption; try lra.
  - apply (K_ratio_low _ _ _ Ha eq_refl); lra.
  - apply (K_ratio_low _ _ _ Hk eq_refl); lra.
  - apply first_branch_decreasing; lra.
Qed.

(** ** The claims on [Z0] *)

Lemma K_ratio_positive (self : CPW) (kv : value) (k : R) :
  k1 self = Ok kv -> scalar_val kv = Some k -> 0 <= k < 1 ->
  exists c, K_ratio self = Ok (VNp (Finite c)) /\ 0 < c.
Proof.
  intros Hk1 Hkv Hr; pose proof (ln_log_arg_pos k Hr) as Hl; pose proof PI_RGT_0.
  destruct (Rle_dec k (1 / sqrt 2)) as [Hle | Hgt].
  - exists (PI / ln (log_arg k)); split.
    + apply (K_ratio_low self kv k Hk1 Hkv); lra.
    + apply Rdiv_lt_0_compat; lra.
  - exists (ln (log_arg k) / PI); split.
    + apply (K_ratio_high self kv k Hk1 Hkv); lra.
    + apply Rdiv_lt_0_compat; lra.
Qed.

Section Impedance.

Variables (fs : list R) (z0 w s t rho : value) (a b : R).
Hypothesis Hw : num_val w = Some a.
Hypothesis Hs : num_val s = Some b.
Hypothesis Ha : 0 < a.
Hypothesis Hb : 0 < b.



End Impedance.



(** An array modulus of two or more elements has no truth value: the first
    test of [K_ratio] raises. *)
Lemma K_ratio_array (self : CPW) (l : list float) :
  k1 self = Ok (VArr l) -> (2 <= length l)%nat -> K_ratio self = Raise ValueError.
Proof.
  intros Hk1 Hlen; unfold K_ratio; rewrite Hk1.
  cbn [bind chained le compare as_ndarray truth].
  destruct l as [ | x [ | y l]]; simpl in Hlen; [lia | lia | reflexivity].
Qed.

Lemma array_k1 (fs : list R) :
  k1 (array_CPW fs) = Ok (VArr [Finite (1 / (1 + 8)); Finite (2 / (2 + 8))]).
Proof.
  unfold k1, lift2, add, mul.
  cbn [bind binop Zarith as_ndarray np_arith array_CPW CPW_init w s map farith
       fadd old_div truediv broadcast length Nat.eqb zip_with fdiv].
  change (IZR (2 * 4)) with 8.
  destruct (Req_dec_T (1 + 8) 0); [lra | ].
  destruct (Req_dec_T (2 + 8) 0); [lra | reflexivity].
Qed.

(** C8, on the code: with a per-frequency array for [w] (here with the two
    samples [[1., 2.]], [s] and [ep_r] at their defaults) [Z0] returns no
    sequence at all: the test [0 <= k1 <= ...] of [K_ratio] raises
    [ValueError]. *)
Theorem Z0_array_width (fs : list R) : Z0 (array_CPW fs) = Raise ValueError.
Proof.
  unfold Z0, lift2, lift1, pi, mul, truediv.
  rewrite (K_ratio_array (array_CPW fs) _ (array_k1 fs)) by (simpl; lia).
  rewrite (ep_re_num (array_CPW fs) 3 eq_refl).
  cbn [bind binop py_float_arith Rarith].
  rewrite (np_sqrt_scalar (VFloat ((3 + 1) / 2)) _ eq_refl).
  cbn [bind binop as_ndarray np_arith]; reflexivity.
Qed.



(** ** The defaults *)

(** C10, on the code: the default-constructed model has [w = 70], [s = 4],
    [ep_r = 3], [t] and [rho] unset and effective permittivity [2], but its
    modulus is the int [0], not [70/78]: [old_div] floors the quotient of the
    two int defaults. *)
Theorem default_modulus_is_zero (fs : list R) :
  w (default_CPW fs) = VInt 70 /\ s (default_CPW fs) = VInt 4 /\
  ep_r (default_CPW fs) = VInt 3 /\
  t (default_CPW fs) = VNone /\ rho (default_CPW fs) = VNone /\
  ep_re (default_CPW fs) = Ok (VFloat 2) /\
  k1 (default_CPW fs) = Ok (VInt 0) /\
  IZR 0 <> 70 / 78.
Proof.
  repeat split; try lra.
  rewrite (ep_re_num (default_CPW fs) 3 eq_refl); do 2 f_equal; lra.
Qed.

(** ** Scalar expressions *)

Lemma evals_ret (v : value) (x : R) : scalar_val v = Some x -> evals (is_int v) (Ok v) x.
Proof. intros H; exists v; auto. Qed.

Lemma binop_scalar (op : arith) (a b : value) (x y : R) :
  scalar_val a = Some x -> scalar_val b = Some y -> (is_div op = true -> y <> 0) ->
  exists v, binop op a b = Ok v /\ scalar_val v = Some (Rarith op x y)
            /\ is_int v = is_int a && is_int b && negb (is_div op).
Proof.
  intros Ha Hb Hy.
  destruct a as [ | a | a | [a | ] | ]; try discriminate;
    destruct b as [ | b | b | [b | ] | ]; try discriminate;
    simpl in Ha, Hb; inversion Ha; inversion Hb; subst;
    destruct op;
    cbn [binop py_float_arith as_ndarray np_arith farith fadd fsub fmul fdiv
         Rarith Zarith];
    try (destruct (Req_dec_T _ 0) as [H0 | _]; [now destruct (Hy eq_refl) | ]);
    eexists; (split; [reflexivity | ]); simpl;
    rewrite ?plus_IZR, ?minus_IZR, ?mult_IZR; auto.
Qed.

Lemma evals_binop (op : arith) (i1 i2 : bool) (m1 m2 : result value) (x y : R) :
  evals i1 m1 x -> evals i2 m2 y -> (is_div op = true -> y <> 0) ->
  evals (i1 && i2 && negb (is_div op)) (lift2 (binop op) m1 m2) (Rarith op x y).
Proof.
  intros (a & -> & Ha & <-) (b & -> & Hb & <-) Hy.
  destruct (binop_scalar op a b x y Ha Hb Hy) as (v & Hv & Hs & Hi).
  exists v; unfold lift2; cbn [bind]; auto.
Qed.

Lemma evals_add i1 i2 m1 m2 x y :
  evals i1 m1 x -> evals i2 m2 y -> evals (i1 && i2 && true) (lift2 add m1 m2) (x + y).
Proof. intros H1 H2; apply (evals_binop Add _ _ _ _ _ _ H1 H2); discriminate. Qed.

Lemma evals_sub i1 i2 m1 m2 x y :
  evals i1 m1 x -> evals i2 m2 y -> evals (i1 && i2 && true) (lift2 sub m1 m2) (x - y).
Proof. intros H1 H2; apply (evals_binop Sub _ _ _ _ _ _ H1 H2); discriminate. Qed.

Lemma evals_mul i1 i2 m1 m2 x y :
  evals i1 m1 x -> evals i2 m2 y -> evals (i1 && i2 && true) (lift2 mul m1 m2) (x * y).
Proof. intros H1 H2; apply (evals_binop Mul _ _ _ _ _ _ H1 H2); discriminate. Qed.

Lemma evals_truediv i1 i2 m1 m2 x y :
  evals i1 m1 x -> evals i2 m2 y -> y <> 0 ->
  evals (i1 && i2 && false) (lift2 truediv m1 m2) (x / y).
Proof. intros H1 H2 Hy; apply (evals_binop Div _ _ _ _ _ _ H1 H2); auto. Qed.

(** [old_div] of a non-int by a scalar is the true quotient. *)
Lemma evals_old_div (i2 : bool) (m1 m2 : result value) (x y : R) :
  evals false m1 x -> evals i2 m2 y -> y <> 0 ->
  evals false (lift2 old_div m1 m2) (x / y).
Proof.
  intros (a & -> & Ha & Hia) (b & -> & Hb & Hib) Hy.
  destruct (binop_scalar Div a b x y Ha Hb (fun _ => Hy)) as (v & Hv & Hs & Hi).
  exists v; unfold lift2; cbn [bind]; repeat split; auto.
  - destruct a; try discriminate; exact Hv.
  - rewrite Hi, andb_false_r; reflexivity.
Qed.

Lemma evals_pow (i : bool) (m : result value) (x : R) (n : nat) :
  evals i m x -> evals i (lift1 (fun v => pow v n) m) (x ^ n).
Proof.
  intros (a & -> & Ha & Hi); unfold lift1; cbn [bind].
  destruct a as [ | a | a | [a | ] | ]; try discriminate;
    simpl in Ha; inversion Ha; subst; eexists; (split; [reflexivity | ]);
    simpl; rewrite ?pow_IZR; auto.
Qed.

Lemma evals_ufunc (g : float -> float) (i : bool) (m : result value) (x y : R) :
  evals i m x -> g (Finite x) = Finite y -> evals false (lift1 (ufunc g) m) y.
Proof.
  intros (a & -> & Ha & Hi) Hg; unfold lift1, ufunc; cbn [bind].
  rewrite (as_ndarray_scalar _ _ Ha), Hg; eexists; split; [reflexivity | auto].
Qed.

Lemma evals_sqrt (i : bool) (m : result value) (x : R) :
  evals i m x -> 0 <= x -> evals false (lift1 np_sqrt m) (sqrt x).
Proof. intros H Hx; apply (evals_ufunc fsqrt i m x _ H), fsqrt_finite, Hx. Qed.

Lemma evals_log (i : bool) (m : result value) (x : R) :
  evals i m x -> 0 < x -> evals false (lift1 np_log m) (ln x).
Proof. intros H Hx; apply (evals_ufunc flog i m x _ H), flog_finite, Hx. Qed.

Lemma binop_array_scalar (op : arith) (l : list float) (v : value) (y : R) :
  scalar_val v = Some y ->
  binop op (VArr l) v = Ok (VArr (map (fun x => farith op x (Finite y)) l)).
Proof.
  intros Hv; destruct v as [ | z | r | [r | ] | l']; try discriminate;
    simpl in Hv; inversion Hv; reflexivity.
Qed.

(** ** The conductor loss *)

Section ConductorLoss.

Variable ellipk : R -> float.
Variable surface_resistivity : value -> value -> value -> result value.

Variable self : CPW.
Variables (W S E T k K1 K2 : R) (kv : value) (rs : list R).

Hypothesis Hrho : rho self <> VNone.
Hypothesis HW : num_val (w self) = Some W.
Hypothesis HS : num_val (s self) = Some S.
Hypothesis HE : num_val (ep_r self) = Some E.
Hypothesis HT : num_val (t self) = Some T.
Hypothesis Wpos : 0 < W.
Hypothesis Spos : 0 < S.
Hypothesis Tpos : 0 < T.
Hypothesis Ege : -1 <= E.
Hypothesis Hk1 : k1 self = Ok kv.
Hypothesis Hkv : scalar_val kv = Some k.
Hypothesis Hrs :
  surface_resistivity (f self) (rho self) (VInt 1) = Ok (VArr (map Finite rs)).
Hypothesis HK1 : ellipk k = Finite K1.
Hypothesis HK2 : ellipk (sqrt (1 - k ^ 2)) = Finite K2.
Hypothesis K1nz : K1 <> 0.
Hypothesis K2nz : K2 <> 0.

Lemma modulus_range : 0 <= k < 1.
Proof.
  destruct (k1_valid self W S HW HS Wpos Spos) as (kv' & k' & Hk' & Hs' & Hr).
  rewrite Hk1 in Hk'; inversion Hk'; subst kv'.
  rewrite Hkv in Hs'; inversion Hs'; subst k'; exact Hr.
Qed.

Lemma one_minus_square : 0 < 1 - k ^ 2.
Proof. pose proof modulus_range; nra. Qed.

(** [480*pi*K(k1)*K_p(k1)*(1-k1**2)] *)
Lemma denominator_value :
  evals false
    (#480 .* Ok pi .* K ellipk kv .* K_p ellipk kv .* (#1 .- Ok kv .** 2))%py
    (480 * PI * K1 * K2 * (1 - k ^ 2)).
Proof.
  pose proof one_minus_square as Hsq.
  pose proof (evals_ret (VInt 480) 480 eq_refl) as H480.
  pose proof (evals_ret (VInt 1) 1 eq_refl) as H1.
  pose proof (evals_ret pi PI eq_refl) as Hpi.
  pose proof (evals_ret kv k Hkv) as Hk.
  pose proof (evals_pow _ _ _ 2 Hk) as Hk2.
  pose proof (evals_sub _ _ _ _ _ _ H1 Hk2) as Hm.
  pose proof (evals_ufunc (ellipk_float ellipk) _ _ _ K1 Hk HK1) as HK.
  pose proof (evals_sqrt _ _ _ Hm (Rlt_le _ _ Hsq)) as Hs.
  pose proof (evals_ufunc (ellipk_float ellipk) _ _ _ K2 Hs HK2) as HKp.
  pose proof (evals_mul _ _ _ _ _ _ H480 Hpi) as Ha.
  pose proof (evals_mul _ _ _ _ _ _ Ha HK) as Hb.
  pose proof (evals_mul _ _ _ _ _ _ Hb HKp) as Hc.
  exact (evals_mul _ _ _ _ _ _ Hc Hm).
Qed.

(** [1./a * (pi + log(old_div(8*pi*a*(1-k1), t*(1+k1))))] for a float [a]. *)
Lemma edge_term (av : value) (a : R) :
  scalar_val av = Some a -> is_int av = false -> 0 < a ->
  evals false
    ($1 ./ Ok av
     .* (Ok pi .+ lift1 np_log
           (lift2 old_div (#8 .* Ok pi .* Ok av .* (#1 .- Ok kv))
                          (Ok (t self) .* (#1 .+ Ok kv)))))%py
    (1 / a * (PI + ln (8 * PI * a * (1 - k) / (T * (1 + k))))).
Proof.
  intros Hav Hai Hapos; pose proof modulus_range as Hr; pose proof PI_RGT_0 as Hp.
  pose proof (evals_ret (VInt 8) 8 eq_refl) as H8.
  pose proof (evals_ret (VInt 1) 1 eq_refl) as H1.
  pose proof (evals_ret (VFloat 1) 1 eq_refl) as H1f.
  pose proof (evals_ret pi PI eq_refl) as Hpi.
  pose proof (evals_ret kv k Hkv) as Hk.
  pose proof (evals_ret av a Hav) as Ha.
  pose proof (evals_ret (t self) T (num_val_scalar _ _ HT)) as Ht.
  pose proof (evals_sub _ _ _ _ _ _ H1 Hk) as Hm.
  pose proof (evals_add _ _ _ _ _ _ H1 Hk) as Hq.
  pose proof (evals_mul _ _ _ _ _ _ H8 Hpi) as Hn1.
  pose proof (evals_mul _ _ _ _ _ _ Hn1 Ha) as Hn2.
  pose proof (evals_mul _ _ _ _ _ _ Hn2 Hm) as Hn.
  pose proof (evals_mul _ _ _ _ _ _ Ht Hq) as Hd.
  assert (Hdpos : 0 < T * (1 + k)) by (apply Rmult_lt_0_compat; lra).
  assert (Hnpos : 0 < 8 * PI * a * (1 - k)).
  { apply Rmult_lt_0_compat; [apply Rmult_lt_0_compat | ]; lra. }
  pose proof (evals_old_div _ _ _ _ _ Hn Hd (Rgt_not_eq _ _ Hdpos)) as Ho.
  pose proof (evals_log _ _ _ Ho (Rdiv_lt_0_compat _ _ Hnpos Hdpos)) as Hl.
  pose proof (evals_add _ _ _ _ _ _ Hpi Hl) as Hs.
  pose proof (evals_truediv _ _ _ _ _ _ H1f Ha (Rgt_not_eq _ _ Hapos)) as Hi.
  exact (evals_mul _ _ _ _ _ _ Hi Hs).
Qed.

End ConductorLoss.

(** ** Closed instances *)

Lemma lossy_k1 (fs : list R) : k1 (lossy_CPW fs) = Ok (VFloat (35 / 39)).
Proof.
  rewrite (k1_float (lossy_CPW fs) (70 / 1000000) (4 / 1000000));
    try reflexivity; try lra.
  do 2 f_equal; lra.
Qed.

Lemma epsilon_0_SI_pos : 0 < epsilon_0_SI.
Proof. unfold epsilon_0_SI; apply Rdiv_lt_0_compat; [lra | apply pow_lt; lra]. Qed.

Lemma mu_0_SI_pos : 0 < mu_0_SI.
Proof.
  unfold mu_0_SI; apply Rdiv_lt_0_compat; [pose proof PI_RGT_0; lra | apply pow_lt; lra].
Qed.

Lemma gamma_without_loss_witness :
  ep_re (default_CPW [1; 2]) = Ok (VFloat ((3 + 1) / 2)) /\
  gamma epsilon_0_SI mu_0_SI ellipk_at_zero unit_surface_resistivity (default_CPW [1; 2])
  = Ok (CArr (map (fun fr => (Finite 0,
                              Finite (2 * PI * fr
                                      * sqrt ((3 + 1) / 2 * epsilon_0_SI * mu_0_SI))))
                  [1; 2])).
Proof.
  destruct (gamma_without_loss epsilon_0_SI mu_0_SI ellipk_at_zero
              unit_surface_resistivity (default_CPW [1; 2]))
    as [Hscalar _].
  - left; reflexivity.
  - apply Rlt_le, epsilon_0_SI_pos.
  - apply Rlt_le, mu_0_SI_pos.
  - apply (Hscalar 3); [reflexivity | lra].
Defined.

Lemma conductor_loss_missing_parameter_witness :
  alpha_conductor ellipk_at_zero unit_surface_resistivity (default_CPW [1; 2])
  = Raise AttributeError /\
  gamma epsilon_0_SI mu_0_SI ellipk_at_zero unit_surface_resistivity (default_CPW [1; 2])
  <> Raise AttributeError.
Proof.
  apply (conductor_loss_missing_parameter epsilon_0_SI mu_0_SI ellipk_at_zero
           unit_surface_resistivity (default_CPW [1; 2])).
  left; reflexivity.
Defined.

(** C3 as stated fails: with [t] and [rho] unset the propagation constant
    raises nothing; on the default model with the samples [[1., 2.]] it
    returns the lossless value. *)
Lemma gamma_default_returns :
  t (default_CPW [1; 2]) = VNone /\ rho (default_CPW [1; 2]) = VNone /\
  gamma epsilon_0_SI mu_0_SI ellipk_at_zero unit_surface_resistivity (default_CPW [1; 2])
  = Ok (CArr [(Finite 0, Finite (2 * PI * 1 * sqrt ((3 + 1) / 2 * epsilon_0_SI * mu_0_SI)));
              (Finite 0, Finite (2 * PI * 2 * sqrt ((3 + 1) / 2 * epsilon_0_SI * mu_0_SI)))]).
Proof.
  repeat split.
  apply (gamma_lossless epsilon_0_SI mu_0_SI ellipk_at_zero unit_surface_resistivity
           (default_CPW [1; 2]) 3); [left; reflexivity | reflexivity | ].
  pose proof epsilon_0_SI_pos; pose proof mu_0_SI_pos.
  apply Rmult_le_pos; [apply Rmult_le_pos | ]; lra.
Qed.

(** ** The branch point

    Bounds on [exp] by repeated squaring, in fixed point with eighteen
    decimals: [exp y <= 1/(1-y)] and [1 + y <= exp y] at [y = x/2^24], then
    twenty-four squarings rounded up, respectively down. *)

Lemma PI_bounds : 31415926 / 10000000 < PI < 31415927 / 10000000.
Proof.
  pose proof (PI_2_3_7_ineq 4) as [Hl Hu].
  unfold sum_f_R0, tg_alt, PI_2_3_7_tg, Ratan_seq in Hl, Hu.
  simpl in Hl, Hu; split; lra.
Qed.

Lemma scale_pos : 0 < IZR scale.
Proof. apply IZR_lt; reflexivity. Qed.

Lemma square_up_spec (u : Z) : (u * u <= square_up u * scale)%Z.
Proof.
  unfold square_up.
  pose proof (Z.mod_pos_bound (u * u + scale - 1) scale eq_refl) as Hm.
  pose proof (Z.div_mod (u * u + scale - 1) scale) as Hd.
  assert (scale <> 0)%Z by discriminate. specialize (Hd H). lia.
Qed.

Lemma square_down_spec (l : Z) : (square_down l * scale <= l * l)%Z.
Proof.
  unfold square_down.
  pose proof (Z.mul_div_le (l * l) scale eq_refl). lia.
Qed.

Lemma square_up_nonneg (u : Z) : (0 <= square_up u)%Z.
Proof.
  pose proof (square_up_spec u). assert (0 <= u * u)%Z by nia.
  assert (0 < scale)%Z by reflexivity. nia.
Qed.

Lemma square_down_nonneg (l : Z) : (0 <= square_down l)%Z.
Proof.
  unfold square_down; apply Z.div_pos; [nia | reflexivity].
Qed.

Lemma exp_double (y : R) : exp (2 * y) = exp y * exp y.
Proof. replace (2 * y) with (y + y) by ring; apply exp_plus. Qed.

Lemma exp_square_up (y : R) (u : Z) :
  exp y <= IZR u / IZR scale -> exp (2 * y) <= IZR (square_up u) / IZR scale.
Proof.
  intros H; pose proof (exp_pos y) as He; pose proof scale_pos as Hs.
  rewrite exp_double.
  apply Rle_trans with (IZR u / IZR scale * (IZR u / IZR scale)).
  - apply Rmult_le_compat; lra.
  - pose proof (IZR_le _ _ (square_up_spec u)) as Hz.
    rewrite !mult_IZR in Hz.
    apply Rmult_le_reg_r with (IZR scale * IZR scale); [nra | ].
    field_simplify; nra.
Qed.

Lemma exp_square_down (y : R) (l : Z) :
  (0 <= l)%Z ->
  IZR l / IZR scale <= exp y -> IZR (square_down l) / IZR scale <= exp (2 * y).
Proof.
  intros Hl H; pose proof scale_pos as Hs.
  assert (H0 : 0 <= IZR l / IZR scale).
  { apply Rmult_le_pos; [apply IZR_le, Hl | apply Rlt_le, Rinv_0_lt_compat, Hs]. }
  rewrite exp_double.
  apply Rle_trans with (IZR l / IZR scale * (IZR l / IZR scale)).
  - pose proof (IZR_le _ _ (square_down_spec l)) as Hz.
    rewrite !mult_IZR in Hz.
    apply Rmult_le_reg_r with (IZR scale * IZR scale); [nra | ].
    field_simplify; nra.
  - apply Rmult_le_compat; lra.
Qed.

Lemma exp_iterate_up (n : nat) : forall (y : R) (u : Z),
  exp y <= IZR u / IZR scale ->
  exp (2 ^ n * y) <= IZR (iterate n square_up u) / IZR scale.
Proof.
  induction n as [ | n IH]; intros y u H; simpl.
  - rewrite Rmult_1_l; exact H.
  - replace (2 * 2 ^ n * y) with (2 ^ n * (2 * y)) by ring.
    apply IH, exp_square_up, H.
Qed.

Lemma exp_iterate_down (n : nat) : forall (y : R) (l : Z),
  (0 <= l)%Z -> IZR l / IZR scale <= exp y ->
  IZR (iterate n square_down l) / IZR scale <= exp (2 ^ n * y).
Proof.
  induction n as [ | n IH]; intros y l Hl H; simpl.
  - rewrite Rmult_1_l; exact H.
  - replace (2 * 2 ^ n * y) with (2 ^ n * (2 * y)) by ring.
    apply IH; [apply square_down_nonneg | apply exp_square_down; assumption].
Qed.

Lemma exp_below (y : R) : y < 1 -> exp y <= 1 / (1 - y).
Proof.
  intros Hy; pose proof (exp_ineq1_le (- y)) as H; rewrite exp_Ropp in H.
  pose proof (exp_pos y) as He.
  apply Rmult_le_reg_r with (1 - y); [lra | ].
  unfold Rdiv; rewrite Rmult_assoc, Rinv_l, Rmult_1_r by lra.
  apply Rmult_le_reg_r with (/ exp y); [apply Rinv_0_lt_compat, He | ].
  rewrite Rmult_assoc, (Rmult_comm (1 - y)), <- Rmult_assoc, Rinv_r by lra.
  lra.
Qed.

Lemma exp_PI_upper : exp PI < 23140701 / 1000000.
Proof.
  pose proof PI_bounds as [_ Hpi].
  apply Rlt_le_trans with (exp (31415927 / 10000000)); [apply exp_increasing, Hpi | ].
  replace (31415927 / 10000000) with (2 ^ 24 * (31415927 / (10000000 * 2 ^ 24)))
    by (field; apply pow_nonzero; lra).
  eapply Rle_trans.
  - apply (exp_iterate_up 24 _ 1000000187253551977).
    eapply Rle_trans; [apply exp_below | ]; unfold scale; simpl; lra.
  - replace (iterate 24 square_up 1000000187253551977) with 23140700513646126539%Z
      by (vm_compute; reflexivity).
    unfold scale; simpl; lra.
Qed.

Lemma exp_PI_lower : 23140915 / 1000000 < exp (PI + 1 / 100000).
Proof.
  pose proof PI_bounds as [Hpi _].
  apply Rle_lt_trans with (exp (31416026 / 10000000)); [ | apply exp_increasing; lra].
  replace (31416026 / 10000000) with (2 ^ 24 * (31416026 / (10000000 * 2 ^ 24)))
    by (field; apply pow_nonzero; lra).
  eapply Rle_trans.
  2:{ apply (exp_iterate_down 24 _ 1000000187254106998); [lia | ].
      eapply Rle_trans; [ | apply exp_ineq1_le]; unfold scale; simpl; lra. }
  replace (iterate 24 square_down 1000000187254106998) with 23140915993795337526%Z
    by (vm_compute; reflexivity).
  unfold scale; simpl; lra.
Qed.

Lemma sqrt_between (x lo hi : R) :
  0 <= lo -> 0 <= hi -> lo * lo < x -> x < hi * hi -> lo < sqrt x < hi.
Proof.
  intros Hlo Hhi Hl Hu.
  assert (0 <= lo * lo) by nra.
  split.
  - rewrite <- (sqrt_square lo Hlo); apply sqrt_lt_1; lra.
  - rewrite <- (sqrt_square hi Hhi); apply sqrt_lt_1; nra.
Qed.

Lemma inv_sqrt2_square : 1 / sqrt 2 * (1 / sqrt 2) = 1 / 2.
Proof.
  assert (H : 0 < sqrt 2) by (apply sqrt_lt_R0; lra).
  assert (Hs : sqrt 2 * sqrt 2 = 2) by (apply sqrt_sqrt; lra).
  field_simplify; [ | lra]. rewrite <- Hs at 2. field_simplify; lra.
Qed.

Lemma inv_sqrt2_tight : 70710678 / 100000000 < 1 / sqrt 2 < 70710679 / 100000000.
Proof.
  pose proof inv_sqrt2_square as Hc.
  assert (H : 0 < 1 / sqrt 2) by (apply Rdiv_lt_0_compat; [lra | apply sqrt_lt_R0; lra]).
  split; nra.
Qed.

Lemma sqrt_inv_sqrt2 : 8408964 / 10000000 < sqrt (1 / sqrt 2) < 8408965 / 10000000.
Proof.
  pose proof inv_sqrt2_tight; apply sqrt_between; lra.
Qed.

Lemma log_arg_branch_point :
  23140851 / 1000000 < log_arg (1 / sqrt 2) < 23140868 / 1000000.
Proof.
  pose proof sqrt_inv_sqrt2 as [Hl Hu]; unfold log_arg.
  set (r := sqrt (1 / sqrt 2)) in *.
  split.
  - apply Rmult_lt_reg_r with (1 - r); [lra | ].
    unfold Rdiv at 2; rewrite Rmult_assoc, Rinv_l; lra.
  - apply Rmult_lt_reg_r with (1 - r); [lra | ].
    unfold Rdiv at 1; rewrite Rmult_assoc, Rinv_l; lra.
Qed.

Lemma ln_branch_point :
  PI < ln (log_arg (1 / sqrt 2)) < PI + 1 / 100000.
Proof.
  pose proof log_arg_branch_point as [Hl Hu].
  pose proof exp_PI_upper; pose proof exp_PI_lower.
  assert (Hx : 0 < log_arg (1 / sqrt 2)) by lra.
  split; apply exp_lt_inv; rewrite (exp_ln _ Hx); lra.
Qed.

Lemma branches_meet :
  PI / ln (log_arg (1 / sqrt 2)) < ln (log_arg (1 / sqrt 2)) / PI /\
  ln (log_arg (1 / sqrt 2)) / PI - PI / ln (log_arg (1 / sqrt 2)) < 1 / 100000.
Proof.
  pose proof ln_branch_point as [Hl Hu]; pose proof PI_bounds as [Hp Hq].
  set (L := ln (log_arg (1 / sqrt 2))) in *.
  assert (HL : 0 < L) by lra.
  assert (E : L / PI - PI / L = (L - PI) * (L + PI) / (PI * L)) by (field; lra).
  assert (Hd : 0 < PI * L) by (apply Rmult_lt_0_compat; lra).
  split.
  - cut (0 < L / PI - PI / L); [lra | rewrite E].
    apply Rdiv_lt_0_compat; [apply Rmult_lt_0_compat | ]; lra.
  - rewrite E; apply Rmult_lt_reg_r with (PI * L); [exact Hd | ].
    unfold Rdiv at 1; rewrite Rmult_assoc, Rinv_l by lra.
    nra.
Qed.

Lemma branch_point_k1 (fs : list R) :
  k1 (float_CPW fs 1 ((sqrt 2 - 1) / 2)) = Ok (VFloat (1 / sqrt 2)).
Proof.
  pose proof sqrt2_pos.
  rewrite float_k1 by lra; do 3 f_equal; lra.
Qed.

(** The agreement is not exact: past the branch point the ratio is larger
    than at it by more than the gap between the two formulas there. *)
Lemma K_ratio_jump (k : R) :
  1 / sqrt 2 < k < 1 ->
  PI / ln (log_arg (1 / sqrt 2)) < ln (log_arg (1 / sqrt 2)) / PI /\
  ln (log_arg (1 / sqrt 2)) / PI < ln (log_arg k) / PI.
Proof.
  intros [Hl Hu]; pose proof inv_sqrt2_bounds; split.
  - apply branches_meet.
  - apply second_branch_increasing; lra.
Qed.

(** * Further properties of the accessors *)

(** ** The modulus [k1] *)

Lemma div_lt_cross (x y x' y' : R) : 0 < y -> 0 < y' -> x * y' < x' * y -> x / y < x' / y'.
Proof.
  intros Hy Hy' H.
  apply Rmult_lt_reg_r with y; [exact Hy | ].
  unfold Rdiv at 1; rewrite Rmult_assoc, Rinv_l, Rmult_1_r by lra.
  apply Rmult_lt_reg_r with y'; [exact Hy' | ].
  replace (x' / y' * y * y') with (x' * y) by (field; lra).
  exact H.
Qed.

(** X1: two positive int widths always give the modulus [0]: [old_div] floors
    [w/(w+2s)], which lies strictly between 0 and 1. *)
Theorem k1_positive_ints (self : CPW) (a b : Z) :
  w self = VInt a -> s self = VInt b -> (0 < a)%Z -> (0 < b)%Z ->
  k1 self = Ok (VInt 0).
Proof.
  intros Hw Hs Ha Hb.
  rewrite (k1_int self a b Hw Hs) by lia.
  rewrite Z.div_small by lia; reflexivity.
Qed.

Lemma k1_positive_ints_witness : k1 (default_CPW [1; 2]) = Ok (VInt 0).
Proof.
  apply (k1_positive_ints (default_CPW [1; 2]) 70 4); try reflexivity; lia.
Defined.

(** X2: as soon as one of two positive scalar widths is a float, the modulus is
    the float [w/(w+2s)], strictly between 0 and 1. *)
Theorem k1_positive_floats (self : CPW) (a b : R) :
  num_val (w self) = Some a -> num_val (s self) = Some b ->
  is_int (w self) && is_int (s self) = false -> 0 < a -> 0 < b ->
  k1 self = Ok (VFloat (a / (a + 2 * b))) /\ 0 < a / (a + 2 * b) < 1.
Proof.
  intros Hw Hs Hi Ha Hb; split; [apply k1_float; auto; lra | split].
  - apply Rdiv_lt_0_compat; lra.
  - apply Rmult_lt_reg_r with (a + 2 * b); [lra | ].
    unfold Rdiv; rewrite Rmult_assoc, Rinv_l; lra.
Qed.

Lemma k1_positive_floats_witness :
  k1 (micro_CPW [1]) = Ok (VFloat (70 / 1000000 / (70 / 1000000 + 2 * (4 / 1000000))))
  /\ 0 < 70 / 1000000 / (70 / 1000000 + 2 * (4 / 1000000)) < 1.
Proof.
  apply (k1_positive_floats (micro_CPW [1]) (70 / 1000000) (4 / 1000000));
    try reflexivity; lra.
Defined.

Lemma k1_degenerate (self : CPW) (a b : R) :
  num_val (w self) = Some a -> num_val (s self) = Some b -> a + 2 * b = 0 ->
  k1 self = Raise ZeroDivisionError.
Proof.
  intros Hw Hs Hz.
  destruct (is_int (w self) && is_int (s self)) eqn:Hi.
  - destruct (w self) as [ | x | | | ] eqn:Ew; try discriminate.
    destruct (s self) as [ | y | | | ] eqn:Es; try discriminate.
    simpl in Hw, Hs; inversion Hw; inversion Hs; subst.
    assert (Hxy : (x + 2 * y = 0)%Z).
    { apply eq_IZR; rewrite plus_IZR, mult_IZR; exact Hz. }
    unfold k1, lift2, add, mul; rewrite Ew, Es.
    cbn [bind binop Zarith old_div]; rewrite Hxy; reflexivity.
  - apply (k1_float_zero self a b Hw Hs Hi Hz).
Qed.

(** X3: scalar widths with [w + 2s = 0] (both zero, for one) make [k1] raise
    [ZeroDivisionError], ints and floats alike. *)
Theorem k1_zero_division (self : CPW) (a b : R) :
  num_val (w self) = Some a -> num_val (s self) = Some b -> a + 2 * b = 0 ->
  k1 self = Raise ZeroDivisionError.
Proof. exact (k1_degenerate self a b). Qed.

Lemma k1_zero_division_witness : k1 (float_CPW [1] 0 0) = Raise ZeroDivisionError.
Proof.
  apply (k1_zero_division (float_CPW [1] 0 0) 0 0); try reflexivity; lra.
Defined.

(** X4: for positive float widths the modulus grows with the width of the centre
    conductor and falls with the width of the gap. *)
Theorem k1_monotone (fs : list R) (z0 ep_r t rho : value) (a a' b b' : R) :
  0 < a -> a < a' -> 0 < b -> b < b' ->
  exists k ka kb,
    k1 (mkCPW fs z0 (VFloat a) (VFloat b) ep_r t rho) = Ok (VFloat k) /\
    k1 (mkCPW fs z0 (VFloat a') (VFloat b) ep_r t rho) = Ok (VFloat ka) /\
    k1 (mkCPW fs z0 (VFloat a) (VFloat b') ep_r t rho) = Ok (VFloat kb) /\
    kb < k /\ k < ka.
Proof.
  intros Ha Haa Hb Hbb.
  exists (a / (a + 2 * b)), (a' / (a' + 2 * b)), (a / (a + 2 * b')).
  repeat split; try (apply k1_float; try reflexivity; lra).
  - apply div_lt_cross; nra.
  - apply div_lt_cross; nra.
Qed.

Lemma k1_monotone_witness :
  exists k ka kb,
    k1 (mkCPW [1] VNone (VFloat 1) (VFloat 1) (VInt 3) VNone VNone) = Ok (VFloat k) /\
    k1 (mkCPW [1] VNone (VFloat 2) (VFloat 1) (VInt 3) VNone VNone) = Ok (VFloat ka) /\
    k1 (mkCPW [1] VNone (VFloat 1) (VFloat 2) (VInt 3) VNone VNone) = Ok (VFloat kb) /\
    kb < k /\ k < ka.
Proof.
  apply (k1_monotone [1] VNone (VInt 3) VNone VNone 1 2 1 2); lra.
Defined.

(** ** The effective permittivity [ep_re] *)

(** X5: [ep_re] never floors: the divisor is the float [2.], so an int [ep_r]
    gives the float [(ep_r+1)/2]; an array is handled element by element and
    [None] raises [TypeError]. *)
Theorem ep_re_cases (self : CPW) :
  (forall e : R, num_val (ep_r self) = Some e ->
                 ep_re self = Ok (VFloat ((e + 1) / 2))) /\
  (forall es : list R, ep_r self = VArr (map Finite es) ->
                       ep_re self = Ok (VArr (map (fun e => Finite ((e + 1) / 2)) es))) /\
  (ep_r self = VNone -> ep_re self = Raise TypeError).
Proof.
  repeat split.
  - intros e He; apply ep_re_num, He.
  - intros es He; unfold ep_re, lift2, add; rewrite He.
    cbn [bind binop as_ndarray np_arith old_div truediv farith].
    rewrite !map_map; do 2 f_equal; apply map_ext; intros e.
    cbn [fadd]; rewrite fdiv_finite by lra; reflexivity.
  - intros He; unfold ep_re, lift2, add; rewrite He; reflexivity.
Qed.

(** ** The ratio [K_ratio] *)

Lemma log_arg_zero : log_arg 0 = 2.
Proof. unfold log_arg; rewrite sqrt_0; field. Qed.

(** X6: on the second branch the ratio strictly increases with the modulus. *)
Theorem K_ratio_rises_on_second_branch (self self' : CPW) (kv kv' : value) (k k' : R) :
  k1 self = Ok kv -> scalar_val kv = Some k ->
  k1 self' = Ok kv' -> scalar_val kv' = Some k' ->
  1 / sqrt 2 < k -> k < k' -> k' < 1 ->
  exists r r', K_ratio self = Ok (VNp (Finite r)) /\
               K_ratio self' = Ok (VNp (Finite r')) /\ r < r'.
Proof.
  intros Hk1 Hkv Hk1' Hkv' Hl Hlt Hu; pose proof inv_sqrt2_bounds.
  exists (ln (log_arg k) / PI), (ln (log_arg k') / PI); repeat split.
  - apply (K_ratio_high self kv k Hk1 Hkv); lra.
  - apply (K_ratio_high self' kv' k' Hk1' Hkv'); lra.
  - apply second_branch_increasing; lra.
Qed.

Lemma K_ratio_rises_on_second_branch_witness :
  exists r r', K_ratio (float_CPW [1] 3 (1 / 2)) = Ok (VNp (Finite r)) /\
               K_ratio (micro_CPW [1]) = Ok (VNp (Finite r')) /\ r < r'.
Proof.
  pose proof inv_sqrt2_approx.
  apply (K_ratio_rises_on_second_branch (float_CPW [1] 3 (1 / 2)) (micro_CPW [1])
           (VFloat (3 / (3 + 2 * (1 / 2)))) (VFloat (35 / 39))
           (3 / (3 + 2 * (1 / 2))) (35 / 39));
    try reflexivity; try lra.
  - apply float_k1; lra.
  - apply micro_k1.
Defined.

(** X7: on the first branch, the branch point included, it strictly decreases:
    the formula there is [pi] over a logarithm that grows with the modulus. *)
Theorem K_ratio_falls_below_branch_point (self self' : CPW) (kv kv' : value) (k k' : R) :
  k1 self = Ok kv -> scalar_val kv = Some k ->
  k1 self' = Ok kv' -> scalar_val kv' = Some k' ->
  0 <= k -> k < k' -> k' <= 1 / sqrt 2 ->
  exists r r', K_ratio self = Ok (VNp (Finite r)) /\
               K_ratio self' = Ok (VNp (Finite r')) /\ r' < r.
Proof.
  intros Hk1 Hkv Hk1' Hkv' Hl Hlt Hu; pose proof inv_sqrt2_bounds.
  exists (PI / ln (log_arg k)), (PI / ln (log_arg k')); repeat split.
  - apply (K_ratio_low self kv k Hk1 Hkv); lra.
  - apply (K_ratio_low self' kv' k' Hk1' Hkv'); lra.
  - apply first_branch_decreasing; lra.
Qed.

Lemma K_ratio_falls_below_branch_point_witness :
  exists r r', K_ratio (default_CPW [1]) = Ok (VNp (Finite r)) /\
               K_ratio (float_CPW [1] 1 (3 / 2)) = Ok (VNp (Finite r')) /\ r' < r.
Proof.
  pose proof inv_sqrt2_approx.
  apply (K_ratio_falls_below_branch_point (default_CPW [1]) (float_CPW [1] 1 (3 / 2))
           (VInt 0) (VFloat (1 / (1 + 2 * (3 / 2)))) 0 (1 / (1 + 2 * (3 / 2))));
    try reflexivity; try lra.
  apply float_k1; lra.
Defined.

(** X8: over the whole range [0 <= k1 < 1] the ratio is finite and above
    [0.999]; on the first branch it is at most [pi / ln 2], its value at
    [k1 = 0], and on the second it is above 1. *)
Theorem K_ratio_bounds (self : CPW) (kv : value) (k : R) :
  k1 self = Ok kv -> scalar_val kv = Some k -> 0 <= k < 1 ->
  exists r, K_ratio self = Ok (VNp (Finite r)) /\
            999 / 1000 < r /\
            (k <= 1 / sqrt 2 -> r <= PI / ln 2) /\
            (1 / sqrt 2 < k -> 1 < r).
Proof.
  intros Hk1 Hkv [H0 H1]; pose proof inv_sqrt2_bounds as Hb.
  pose proof ln_branch_point as [HLl HLu]; pose proof PI_bounds as [Hp Hq].
  destruct (Rle_dec k (1 / sqrt 2)) as [Hle | Hgt].
  - exists (PI / ln (log_arg k)).
    assert (Hpos : 0 < ln (log_arg k)) by (apply ln_log_arg_pos; lra).
    assert (HL : ln (log_arg k) <= ln (log_arg (1 / sqrt 2))).
    { destruct (Rle_lt_or_eq_dec _ _ Hle) as [Hlt | ->]; [ | lra].
      apply Rlt_le, ln_log_arg_increasing; lra. }
    assert (Hge : ln 2 <= ln (log_arg k)).
    { pose proof (log_arg_ge_2 k) as H2.
      destruct (Rle_lt_or_eq_dec 2 (log_arg k)) as [Hlt | <-]; [lra | | lra].
      apply Rlt_le, ln_increasing; lra. }
    assert (Hln2 : 0 < ln 2) by (pose proof ln_lt_2; lra).
    repeat split.
    + apply (K_ratio_low self kv k Hk1 Hkv); lra.
    + apply Rmult_lt_reg_r with (ln (log_arg k)); [exact Hpos | ].
      unfold Rdiv at 2; rewrite Rmult_assoc, Rinv_l by lra; lra.
    + intros _; unfold Rdiv; apply Rmult_le_compat_l; [lra | ].
      apply Rinv_le_contravar; lra.
    + intros Habs; lra.
  - exists (ln (log_arg k) / PI).
    assert (HL : ln (log_arg (1 / sqrt 2)) < ln (log_arg k))
      by (apply ln_log_arg_increasing; lra).
    assert (Hone : 1 < ln (log_arg k) / PI).
    { apply Rmult_lt_reg_r with PI; [lra | ].
      unfold Rdiv; rewrite Rmult_assoc, Rinv_l; lra. }
    repeat split; try lra.
    apply (K_ratio_high self kv k Hk1 Hkv); lra.
Qed.

Lemma K_ratio_bounds_witness :
  exists r, K_ratio (micro_CPW [1]) = Ok (VNp (Finite r)) /\
            999 / 1000 < r /\
            (35 / 39 <= 1 / sqrt 2 -> r <= PI / ln 2) /\
            (1 / sqrt 2 < 35 / 39 -> 1 < r).
Proof.
  apply (K_ratio_bounds (micro_CPW [1]) (VFloat (35 / 39)) (35 / 39));
    [apply micro_k1 | reflexivity | lra].
Defined.

(** ** The impedance [Z0] *)

(** X9: with two positive int widths the ratio is [pi / ln 2] and the impedance
    [30*pi/sqrt(ep_re) * pi/ln 2], whatever the widths are. *)
Theorem Z0_int_widths (self : CPW) (a b : Z) (e : R) :
  w self = VInt a -> s self = VInt b -> (0 < a)%Z -> (0 < b)%Z ->
  num_val (ep_r self) = Some e -> -1 < e ->
  K_ratio self = Ok (VNp (Finite (PI / ln 2))) /\
  Z0_is self (30 * PI / sqrt ((e + 1) / 2) * (PI / ln 2)).
Proof.
  intros Hw Hs Ha Hb He Hgt; pose proof inv_sqrt2_bounds.
  assert (Hk1 : k1 self = Ok (VInt 0)).
  { rewrite (k1_int self a b Hw Hs) by lia; rewrite Z.div_small by lia; reflexivity. }
  assert (HK : K_ratio self = Ok (VNp (Finite (PI / ln 2)))).
  { rewrite <- log_arg_zero; apply (K_ratio_low self (VInt 0) 0 Hk1 eq_refl); lra. }
  split; [exact HK | apply Z0_value; assumption].
Qed.

Lemma Z0_int_widths_witness :
  K_ratio (default_CPW [1; 2]) = Ok (VNp (Finite (PI / ln 2))) /\
  Z0_is (default_CPW [1; 2]) (30 * PI / sqrt ((3 + 1) / 2) * (PI / ln 2)).
Proof.
  apply (Z0_int_widths (default_CPW [1; 2]) 70 4 3); try reflexivity; try lia; lra.
Defined.

Lemma K_ratio_raises (self : CPW) (e : exn) : k1 self = Raise e -> K_ratio self = Raise e.
Proof. intros H; unfold K_ratio; rewrite H; reflexivity. Qed.

Lemma Z0_propagates (self : CPW) (e : exn) :
  ep_r self <> VNone -> K_ratio self = Raise e -> Z0 self = Raise e.
Proof.
  intros Hep HK; unfold Z0, ep_re, lift2, lift1, pi, add, mul, truediv, np_sqrt, ufunc.
  rewrite HK.
  destruct (ep_r self) as [ | z | r | x | l];
    cbn [bind binop py_float_arith Rarith Zarith old_div truediv as_ndarray np_arith];
    try reflexivity; try (now destruct Hep);
    destruct (Req_dec_T 2 0); try lra; reflexivity.
Qed.

(** X10: [Z0] reads [ep_re] before [K_ratio]: with [ep_r] unset it raises
    [TypeError] whatever the widths are; otherwise whatever [K_ratio] raises
    comes out of [Z0] unchanged. *)
Theorem Z0_raises (self : CPW) :
  (ep_r self = VNone -> Z0 self = Raise TypeError) /\
  (ep_r self <> VNone -> forall e, K_ratio self = Raise e -> Z0 self = Raise e).
Proof.
  split.
  - intros He; unfold Z0, ep_re, lift2, lift1, pi, add, mul; rewrite He; reflexivity.
  - intros Hep e; apply Z0_propagates, Hep.
Qed.

(** X11: scalar widths with [w + 2s = 0]: the [ZeroDivisionError] of [k1] comes
    out of [K_ratio] and of [Z0]. *)
Theorem Z0_zero_division (self : CPW) (a b : R) :
  num_val (w self) = Some a -> num_val (s self) = Some b -> a + 2 * b = 0 ->
  ep_r self <> VNone ->
  K_ratio self = Raise ZeroDivisionError /\ Z0 self = Raise ZeroDivisionError.
Proof.
  intros Hw Hs Hz Hep.
  assert (HK : K_ratio self = Raise ZeroDivisionError)
    by apply K_ratio_raises, (k1_degenerate self a b Hw Hs Hz).
  split; [exact HK | apply Z0_propagates; assumption].
Qed.

Lemma Z0_zero_division_witness :
  K_ratio (float_CPW [1] 0 0) = Raise ZeroDivisionError /\
  Z0 (float_CPW [1] 0 0) = Raise ZeroDivisionError.
Proof.
  apply (Z0_zero_division (float_CPW [1] 0 0) 0 0); try reflexivity; try lra.
  discriminate.
Defined.

Lemma k1_array_width (self : CPW) (l : list float) (b : R) :
  w self = VArr l -> num_val (s self) = Some b ->
  exists l', k1 self = Ok (VArr l') /\ length l' = length l.
Proof.
  intros Hw Hs; unfold k1, lift2; cbn [bind].
  destruct (binop_num Mul (VInt 2) (s self) 2 b eq_refl eq_refl Hs)
    as (v & Hv & Hn & _).
  unfold mul; rewrite Hv, Hw; cbn [bind]; unfold add.
  rewrite (binop_array_scalar Add l v _ (num_val_scalar _ _ Hn)).
  cbn [bind old_div truediv binop as_ndarray np_arith].
  rewrite broadcast_same by (rewrite length_map; reflexivity).
  cbn [bind]; eexists; split; [reflexivity | ].
  rewrite zip_with_length; [reflexivity | rewrite length_map; reflexivity].
Qed.

(** X12: a width array of two or more samples (with a scalar gap) never yields an
    impedance: the modulus is an array of that length, the test of
    [K_ratio] has no truth value and [Z0] raises [ValueError]. *)
Theorem Z0_array_widths (self : CPW) (l : list float) (b : R) :
  w self = VArr l -> num_val (s self) = Some b -> (2 <= length l)%nat ->
  ep_r self <> VNone ->
  K_ratio self = Raise ValueError /\ Z0 self = Raise ValueError.
Proof.
  intros Hw Hs Hlen Hep.
  destruct (k1_array_width self l b Hw Hs) as (l' & Hk1 & Hl').
  assert (HK : K_ratio self = Raise ValueError)
    by (apply (K_ratio_array self l' Hk1); lia).
  split; [exact HK | apply Z0_propagates; assumption].
Qed.

Lemma Z0_array_widths_witness :
  K_ratio (array_CPW [1; 2]) = Raise ValueError /\
  Z0 (array_CPW [1; 2]) = Raise ValueError.
Proof.
  apply (Z0_array_widths (array_CPW [1; 2]) [Finite 1; Finite 2] 4);
    try reflexivity; try discriminate; simpl; lia.
Defined.

(** What [Z0] returns when the product [30*pi/sqrt(ep_re) * K_ratio] is not
    finite: every sample is non-finite, in both parts. *)
Lemma Z0_nonfinite (self : CPW) (x y : float) :
  lift1 np_sqrt (ep_re self) = Ok (VNp x) ->
  K_ratio self = Ok (VNp y) ->
  fmul (fdiv (Finite (30 * PI)) x) y = NonFinite ->
  Z0 self = Ok (CArr (repeat (NonFinite, NonFinite) (length (frequency_f self)))).
Proof.
  intros Hs HK Hn; unfold Z0, lift2 at 1, lift2 at 1.
  unfold lift2, pi, mul, truediv; cbn [bind binop py_float_arith Rarith].
  rewrite Hs, HK; cbn [bind binop as_ndarray np_arith farith]; rewrite Hn.
  unfold rmul, ones_complex; cbn [bind to_complex cbinop as_cndarray].
  rewrite map_repeat_const; reflexivity.
Qed.

(** X13: a zero gap with a positive width puts the modulus at 1: no exception, a
    non-finite ratio and a non-finite impedance at every sample. *)
Theorem Z0_zero_gap (self : CPW) (a e : R) :
  num_val (w self) = Some a -> num_val (s self) = Some 0 -> 0 < a ->
  num_val (ep_r self) = Some e -> -1 < e ->
  K_ratio self = Ok (VNp NonFinite) /\
  Z0 self = Ok (CArr (repeat (NonFinite, NonFinite) (length (frequency_f self)))).
Proof.
  intros Hw Hs Ha He Hgt.
  assert (Hk : exists kv, k1 self = Ok kv /\ scalar_val kv = Some 1).
  { destruct (is_int (w self) && is_int (s self)) eqn:Hi.
    - destruct (w self) as [ | x | | | ] eqn:Ew; try discriminate.
      destruct (s self) as [ | y | | | ] eqn:Es; try discriminate.
      simpl in Hw, Hs; inversion Hw; inversion Hs; subst.
      apply lt_IZR in Ha; match goal with H : IZR y = 0 |- _ => apply eq_IZR in H; subst y end.
      exists (VInt 1); split; [ | reflexivity].
      rewrite (k1_int self x 0 Ew Es) by lia.
      replace (x + 2 * 0)%Z with x by lia; rewrite Z.div_same by lia; reflexivity.
    - exists (VFloat (a / (a + 2 * 0))); split.
      + apply k1_float; auto; lra.
      + simpl; f_equal; field; lra. }
  destruct Hk as (kv & Hk1 & Hkv).
  assert (HK : K_ratio self = Ok (VNp NonFinite))
    by apply (K_ratio_one self kv 1 Hk1 Hkv eq_refl).
  split; [exact HK | ].
  apply (Z0_nonfinite self (Finite (sqrt ((e + 1) / 2))) NonFinite).
  - rewrite (ep_re_num self e He); unfold lift1; cbn [bind].
    rewrite (np_sqrt_scalar (VFloat ((e + 1) / 2)) _ eq_refl), fsqrt_finite by lra.
    reflexivity.
  - exact HK.
  - destruct (fdiv (Finite (30 * PI)) (Finite (sqrt ((e + 1) / 2)))); reflexivity.
Qed.

Lemma Z0_zero_gap_witness :
  K_ratio (float_CPW [1; 2] 1 0) = Ok (VNp NonFinite) /\
  Z0 (float_CPW [1; 2] 1 0) = Ok (CArr (repeat (NonFinite, NonFinite) 2)).
Proof.
  apply (Z0_zero_gap (float_CPW [1; 2] 1 0) 1 3); try reflexivity; lra.
Defined.

(** X14: a scalar [ep_r] at or below [-1] raises nothing either: the square root
    of [ep_re] is zero or undefined and every sample of the impedance is
    non-finite. *)
Theorem Z0_low_permittivity (self : CPW) (a b e : R) :
  num_val (w self) = Some a -> num_val (s self) = Some b -> 0 < a -> 0 < b ->
  num_val (ep_r self) = Some e -> e <= -1 ->
  Z0 self = Ok (CArr (repeat (NonFinite, NonFinite) (length (frequency_f self)))).
Proof.
  intros Hw Hs Ha Hb He Hle.
  destruct (k1_valid self a b Hw Hs Ha Hb) as (kv & k & Hk1 & Hkv & Hr).
  destruct (K_ratio_positive self kv k Hk1 Hkv Hr) as (c & HK & Hc).
  apply (Z0_nonfinite self (fsqrt (Finite ((e + 1) / 2))) (Finite c)); [ | exact HK | ].
  - rewrite (ep_re_num self e He); unfold lift1; cbn [bind].
    apply (np_sqrt_scalar (VFloat ((e + 1) / 2)) _ eq_refl).
  - destruct (Rle_lt_or_eq_dec _ _ Hle) as [Hlt | Heq].
    + rewrite fsqrt_negative by lra; reflexivity.
    + replace ((e + 1) / 2) with 0 by lra.
      rewrite fsqrt_finite, sqrt_0, fdiv_zero by lra; reflexivity.
Qed.

Lemma Z0_low_permittivity_witness :
  Z0 (mkCPW [1; 2] VNone (VFloat 1) (VFloat 1) (VInt (-1)) VNone VNone)
  = Ok (CArr (repeat (NonFinite, NonFinite) 2)).
Proof.
  apply (Z0_low_permittivity
           (mkCPW [1; 2] VNone (VFloat 1) (VFloat 1) (VInt (-1)) VNone VNone) 1 1 (-1));
    try reflexivity; lra.
Defined.

Lemma ep_re_array (self : CPW) (es : list R) :
  ep_r self = VArr (map Finite es) ->
  ep_re self = Ok (VArr (map (fun e => Finite ((e + 1) / 2)) es)).
Proof.
  intros He; unfold ep_re, lift2, add; rewrite He.
  cbn [bind binop as_ndarray np_arith old_div truediv farith].
  rewrite !map_map; do 2 f_equal; apply map_ext; intros e.
  cbn [fadd]; rewrite fdiv_finite by lra; reflexivity.
Qed.

Lemma map_ext_Forall {A B : Type} (g h : A -> B) (P : A -> Prop) (l : list A) :
  Forall P l -> (forall a, P a -> g a = h a) -> map g l = map h l.
Proof.
  intros HP Hgh; induction HP as [ | a l Ha HP IH]; simpl; auto.
  rewrite IH, Hgh; auto.
Qed.

(** X15: with a per-frequency array for [ep_r] (one entry above [-1] per sample)
    and positive scalar widths, the impedance follows the permittivity sample
    by sample, with one common positive ratio. *)
Theorem Z0_array_permittivity (self : CPW) (a b : R) (es : list R) :
  num_val (w self) = Some a -> num_val (s self) = Some b -> 0 < a -> 0 < b ->
  ep_r self = VArr (map Finite es) -> length es = length (frequency_f self) ->
  Forall (fun e => -1 < e) es ->
  exists c, 0 < c /\ K_ratio self = Ok (VNp (Finite c)) /\
    Z0 self = Ok (CArr (map (fun e => (Finite (30 * PI / sqrt ((e + 1) / 2) * c),
                                       Finite 0)) es)).
Proof.
  intros Hw Hs Ha Hb He Hlen Hgt.
  destruct (k1_valid self a b Hw Hs Ha Hb) as (kv & k & Hk1 & Hkv & Hr).
  destruct (K_ratio_positive self kv k Hk1 Hkv Hr) as (c & HK & Hc).
  exists c; repeat split; auto.
  unfold Z0, lift2 at 1, lift2 at 1.
  unfold lift2, lift1, pi, mul, truediv; cbn [bind binop py_float_arith Rarith].
  rewrite (ep_re_array self es He), HK; unfold np_sqrt, ufunc.
  cbn [bind binop as_ndarray np_arith farith].
  unfold rmul, ones_complex; cbn [bind to_complex cbinop as_cndarray].
  rewrite broadcast_same by (rewrite !length_map, repeat_length; exact Hlen).
  cbn [bind]; rewrite zip_with_repeat by (rewrite !length_map; exact Hlen).
  rewrite !map_map; do 2 f_equal.
  apply map_ext_Forall with (P := fun e => -1 < e); [exact Hgt | ].
  intros e Hee.
  assert (0 < sqrt ((e + 1) / 2)) by (apply sqrt_lt_R0; lra).
  rewrite fsqrt_finite, fdiv_finite by lra.
  cbn [fcarith fmul fsub fadd]; f_equal; f_equal; ring.
Qed.

Lemma Z0_array_permittivity_witness :
  exists c, 0 < c /\
    K_ratio (mkCPW [1; 2] VNone (VFloat 1) (VFloat 1) (VArr (map Finite [3; 4]))
                   VNone VNone) = Ok (VNp (Finite c)) /\
    Z0 (mkCPW [1; 2] VNone (VFloat 1) (VFloat 1) (VArr (map Finite [3; 4])) VNone VNone)
    = Ok (CArr (map (fun e => (Finite (30 * PI / sqrt ((e + 1) / 2) * c), Finite 0))
                    [3; 4])).
Proof.
  apply (Z0_array_permittivity
           (mkCPW [1; 2] VNone (VFloat 1) (VFloat 1) (VArr (map Finite [3; 4]))
                  VNone VNone) 1 1 [3; 4]);
    try reflexivity; try lra.
  repeat constructor; lra.
Defined.

(** ** The propagation constant [gamma] *)

Lemma broadcast_mismatch {A B C : Type} (g : A -> B -> C) (l1 : list A) (l2 : list B) :
  length l1 <> length l2 -> length l1 <> 1%nat -> length l2 <> 1%nat ->
  broadcast g l1 l2 = Raise ValueError.
Proof.
  intros Hne H1 H2; unfold broadcast.
  destruct (Nat.eqb_spec (length l1) (length l2)) as [Heq | _]; [contradiction | ].
  destruct l1 as [ | a [ | a' l1]]; destruct l2 as [ | b [ | b' l2]];
    simpl in *; try reflexivity; congruence.
Qed.

Section Line.

Variables epsilon_0 mu_0 : R.
Variable ellipk : R -> float.
Variable surface_resistivity : value -> value -> value -> result value.

Local Abbreviation alpha_conductor := (alpha_conductor ellipk surface_resistivity).
Local Abbreviation gamma := (gamma epsilon_0 mu_0 ellipk surface_resistivity).

(** X16: without loss the propagation constant is purely imaginary and
    proportional to the frequency, with the positive slope
    [2*pi*sqrt(ep_re*epsilon_0*mu_0)]: it is zero at zero frequency and
    strictly increasing along the sweep. *)
Theorem gamma_phase_linear (self : CPW) (e : R) :
  rho self = VNone \/ t self = VNone ->
  num_val (ep_r self) = Some e -> -1 < e -> 0 < epsilon_0 -> 0 < mu_0 ->
  exists c, 0 < c /\
    c = 2 * PI * sqrt ((e + 1) / 2 * epsilon_0 * mu_0) /\
    gamma self = Ok (CArr (map (fun fr => (Finite 0, Finite (c * fr)))
                               (frequency_f self))).
Proof.
  intros Hnone He Hgt He0 Hm0.
  assert (Hpos : 0 < (e + 1) / 2 * epsilon_0 * mu_0).
  { apply Rmult_lt_0_compat; [apply Rmult_lt_0_compat | ]; lra. }
  exists (2 * PI * sqrt ((e + 1) / 2 * epsilon_0 * mu_0)); repeat split.
  - pose proof PI_RGT_0; pose proof (sqrt_lt_R0 _ Hpos).
    apply Rmult_lt_0_compat; lra.
  - rewrite (gamma_lossless epsilon_0 mu_0 ellipk surface_resistivity self e Hnone He)
      by lra.
    do 2 f_equal; apply map_ext; intros fr; do 2 f_equal; ring.
Qed.

(** X17: without loss the widths are never read: any two models that differ only
    in [w], [s] and [z0] (unset or degenerate ones included) have the same
    propagation constant. *)
Theorem gamma_lossless_ignores_widths (fs : list R)
  (z z' a a' b b' e thickness resistivity : value) :
  resistivity = VNone \/ thickness = VNone ->
  gamma (mkCPW fs z a b e thickness resistivity)
  = gamma (mkCPW fs z' a' b' e thickness resistivity).
Proof.
  intros Hnone.
  assert (Hc : negb (is_none resistivity) && negb (is_none thickness) = false)
    by (destruct Hnone as [H | H]; rewrite H; [ | rewrite andb_false_r]; reflexivity).
  unfold gamma; cbn [rho t]; rewrite Hc; reflexivity.
Qed.

(** The phase term of a model with a scalar [ep_r]: always an array, one
    sample per frequency. *)
Lemma gamma_scalar_permittivity (self : CPW) (e : R) :
  num_val (ep_r self) = Some e ->
  exists l, length l = length (frequency_f self) /\
    gamma self
    = (alpha <- (if negb (is_none (rho self)) && negb (is_none (t self))
                 then alpha_conductor self
                 else Ok (zeros (length l))) ;;
       cadd (CArr l) alpha).
Proof.
  intros He; unfold gamma, lift2, lift1, pi, f, mul.
  cbn [bind cmul to_complex cbinop Rcarith as_cndarray].
  rewrite (ep_re_num self e He).
  cbn [bind binop py_float_arith Rarith].
  rewrite (np_sqrt_scalar (VFloat ((e + 1) / 2 * epsilon_0 * mu_0)) _ eq_refl).
  cbn [bind cmul to_complex cbinop Rcarith as_cndarray clen].
  eexists; split; cycle 1; [reflexivity | ].
  rewrite !length_map; reflexivity.
Qed.

(** X18: with [t] and [rho] set the widths are read: scalar widths with
    [w + 2s = 0] make [gamma] raise the [ZeroDivisionError] of [k1]. *)
Theorem gamma_zero_division (self : CPW) (a b e : R) :
  rho self <> VNone -> t self <> VNone ->
  num_val (w self) = Some a -> num_val (s self) = Some b -> a + 2 * b = 0 ->
  num_val (ep_r self) = Some e ->
  alpha_conductor self = Raise ZeroDivisionError /\
  gamma self = Raise ZeroDivisionError.
Proof.
  intros Hrho Ht Hw Hs Hz He.
  assert (Hnr : is_none (rho self) = false)
    by (destruct (rho self) eqn:Er; [congruence | reflexivity ..]).
  assert (Hnt : is_none (t self) = false)
    by (destruct (t self) eqn:Et; [congruence | reflexivity ..]).
  assert (Ha : alpha_conductor self = Raise ZeroDivisionError).
  { unfold alpha_conductor; rewrite Hnr, Hnt; cbn [orb].
    rewrite (k1_degenerate self a b Hw Hs Hz); reflexivity. }
  split; [exact Ha | ].
  destruct (gamma_scalar_permittivity self e He) as (l & _ & ->).
  rewrite Hnr, Hnt, Ha; reflexivity.
Qed.

(** X19: a per-frequency array for [ep_r] whose length is neither that of the
    sweep nor 1 (the sweep having more than one sample or none) cannot be
    broadcast: [gamma] raises [ValueError], with or without loss. *)
Theorem gamma_length_mismatch (self : CPW) (es : list float) :
  ep_r self = VArr es ->
  length es <> length (frequency_f self) ->
  length es <> 1%nat -> length (frequency_f self) <> 1%nat ->
  gamma self = Raise ValueError.
Proof.
  intros He Hne H1 Hf.
  unfold gamma, ep_re, lift2, lift1, pi, f, mul, add, np_sqrt, ufunc.
  rewrite He.
  cbn [bind cmul to_complex cbinop Rcarith as_cndarray binop as_ndarray np_arith
       old_div truediv farith].
  rewrite broadcast_mismatch; [reflexivity | | | ]; rewrite !length_map; auto.
Qed.

End Line.

Section LossyLine.

Variables epsilon_0 mu_0 : R.
Variable ellipk : R -> float.
Variable surface_resistivity : value -> value -> value -> result value.

Variable self : CPW.
Variables (W S E T k K1 K2 : R) (kv : value) (rs : list R).

Hypothesis Hrho : rho self <> VNone.
Hypothesis HW : num_val (w self) = Some W.
Hypothesis HS : num_val (s self) = Some S.
Hypothesis HE : num_val (ep_r self) = Some E.
Hypothesis HT : num_val (t self) = Some T.
Hypothesis Wpos : 0 < W.
Hypothesis Spos : 0 < S.
Hypothesis Tpos : 0 < T.
Hypothesis Ege : -1 <= E.
Hypothesis Hk1 : k1 self = Ok kv.
Hypothesis Hkv : scalar_val kv = Some k.
Hypothesis Hrs :
  surface_resistivity (f self) (rho self) (VInt 1) = Ok (VArr (map Finite rs)).
Hypothesis HK1 : ellipk k = Finite K1.
Hypothesis HK2 : ellipk (sqrt (1 - k ^ 2)) = Finite K2.
Hypothesis K1nz : K1 <> 0.
Hypothesis K2nz : K2 <> 0.
Hypothesis Hlen : length rs = length (frequency_f self).
Hypothesis He0 : 0 <= epsilon_0.
Hypothesis Hm0 : 0 <= mu_0.

Lemma alpha_conductor_value :
  alpha_conductor ellipk surface_resistivity self
  = Ok (VArr (map (fun r_s => Finite (attenuation r_s ((E + 1) / 2) K1 K2 k
                                                  (W / 2) (S + W / 2) T))
                  rs)).
Proof.
  pose proof (modulus_range self W S k kv HW HS Wpos Spos Hk1 Hkv) as Hr.
  pose proof (one_minus_square self W S k kv HW HS Wpos Spos Hk1 Hkv) as Hsq.
  assert (Hnr : is_none (rho self) = false)
    by (destruct (rho self) eqn:Er; [congruence | reflexivity ..]).
  assert (Hnt : is_none (t self) = false)
    by (destruct (t self) eqn:Et; [discriminate HT | reflexivity ..]).
  unfold alpha_conductor; rewrite Hnr, Hnt; cbn [orb].
  rewrite Hk1, (ep_re_num self E HE), Hrs; cbn [bind].
  rewrite (old_div_float (w self) (VFloat 2) W 2 HW eq_refl)
    by (try apply andb_false_r; lra); cbn [bind].
  destruct (binop_num Add (s self) (VFloat (W / 2)) S (W / 2) eq_refl HS eq_refl)
    as (bv & Hbv & Hbn & Hbi); rewrite andb_false_r in Hbi.
  change (lift2 add (Ok (s self)) (Ok (VFloat (W / 2))))
    with (binop Add (s self) (VFloat (W / 2))).
  rewrite Hbv; cbn [bind].
  destruct (denominator_value ellipk self W S k K1 K2 kv HW HS Wpos Spos Hk1 Hkv HK1 HK2)
    as (dv & Hdv & Hds & _).
  destruct (edge_term self W S T k kv HW HS HT Wpos Spos Tpos Hk1 Hkv
              (VFloat (W / 2)) (W / 2) eq_refl eq_refl)
    as (x1 & Hx1 & Hx1s & _); [lra | ].
  destruct (edge_term self W S T k kv HW HS HT Wpos Spos Tpos Hk1 Hkv
              bv (S + W / 2) (num_val_scalar _ _ Hbn) Hbi)
    as (x2 & Hx2 & Hx2s & _); [cbn [Rarith]; lra | ].
  destruct (evals_add _ _ _ _ _ _
              (ex_intro _ x1 (conj Hx1 (conj Hx1s eq_refl)))
              (ex_intro _ x2 (conj Hx2 (conj Hx2s eq_refl))))
    as (fv & Hfv & Hfs & _).
  rewrite Hfv, Hdv.
  rewrite (np_sqrt_scalar (VFloat ((E + 1) / 2)) _ eq_refl), fsqrt_finite by lra.
  unfold lift2, mul, truediv; cbn [bind].
  rewrite (binop_array_scalar Mul _ (VNp (Finite (sqrt ((E + 1) / 2)))) _ eq_refl).
  cbn [bind]; rewrite (binop_array_scalar Div _ dv _ Hds).
  cbn [bind]; rewrite (binop_array_scalar Mul _ fv _ Hfs).
  rewrite !map_map; do 2 f_equal; apply map_ext; intros r_s.
  cbn [farith fmul]; rewrite fdiv_finite; [reflexivity | pose proof PI_RGT_0 ].
  apply Rmult_integral_contrapositive_currified; [ | lra].
  apply Rmult_integral_contrapositive_currified; [ | exact K2nz].
  apply Rmult_integral_contrapositive_currified; [lra | exact K1nz].
Qed.

(** X20: with [t] and [rho] set, [gamma] is [beta + alpha] sample by sample: the
    real part is the conductor attenuation at that sample and the imaginary
    part the lossless phase term, which the loss leaves unchanged. *)
Theorem gamma_with_loss :
  gamma epsilon_0 mu_0 ellipk surface_resistivity self
  = Ok (CArr (zip_with
                (fun fr r_s =>
                   (Finite (attenuation r_s ((E + 1) / 2) K1 K2 k
                                        (W / 2) (S + W / 2) T),
                    Finite (2 * PI * fr * sqrt ((E + 1) / 2 * epsilon_0 * mu_0))))
                (frequency_f self) rs)).
Proof.
  assert (Hnr : is_none (rho self) = false)
    by (destruct (rho self) eqn:Er; [congruence | reflexivity ..]).
  assert (Hnt : is_none (t self) = false)
    by (destruct (t self) eqn:Et; [discriminate HT | reflexivity ..]).
  assert (Hpos : 0 <= (E + 1) / 2 * epsilon_0 * mu_0)
    by (apply Rmult_le_pos; [apply Rmult_le_pos | ]; lra).
  unfold gamma, lift2, lift1, pi, f, mul.
  cbn [bind cmul to_complex cbinop Rcarith as_cndarray].
  rewrite (ep_re_num self E HE).
  cbn [bind binop py_float_arith Rarith].
  rewrite (np_sqrt_scalar (VFloat ((E + 1) / 2 * epsilon_0 * mu_0)) _ eq_refl).
  rewrite fsqrt_finite by lra.
  cbn [bind cmul to_complex cbinop Rcarith as_cndarray clen].
  rewrite Hnr, Hnt; cbn [negb andb]; rewrite alpha_conductor_value.
  unfold cadd; cbn [bind to_complex cbinop as_cndarray].
  rewrite broadcast_same by (rewrite !length_map; auto).
  cbn [bind]; rewrite !map_map, zip_with_map_l, zip_with_map_r.
  do 2 f_equal.
  apply zip_with_ext_in with (P := fun _ => True); [ | intros fr r_s _].
  - clear; induction rs; constructor; auto.
  - cbn [fcarith fmul fsub fadd]; f_equal; f_equal; ring.
Qed.

End LossyLine.

(** ** The conductor loss at zero thickness *)

Lemma k1_valid_num (self : CPW) (a b : R) :
  num_val (w self) = Some a -> num_val (s self) = Some b -> 0 < a -> 0 < b ->
  exists kv k, k1 self = Ok kv /\ num_val kv = Some k /\ 0 <= k < 1.
Proof.
  intros Hw Hs Ha Hb.
  destruct (k1_valid self a b Hw Hs Ha Hb) as (kv & k & Hk1 & Hkv & Hr).
  exists kv, k; repeat split; try tauto.
  destruct (is_int (w self) && is_int (s self)) eqn:Hi.
  - destruct (w self) as [ | x | | | ] eqn:Ew; try discriminate.
    destruct (s self) as [ | y | | | ] eqn:Es; try discriminate.
    simpl in Hw, Hs; inversion Hw; inversion Hs; subst.
    apply lt_IZR in Ha, Hb.
    rewrite (k1_int self x y Ew Es) in Hk1 by lia.
    inversion Hk1; subst kv; exact Hkv.
  - rewrite (k1_float self a b Hw Hs Hi) in Hk1 by lra.
    inversion Hk1; subst kv; exact Hkv.
Qed.

Section ZeroThickness.

Variable ellipk : R -> float.
Variable surface_resistivity : value -> value -> value -> result value.
Variable self : CPW.
Variables (W S E : R) (rs : list float).

Hypothesis Hrho : rho self <> VNone.
Hypothesis HW : num_val (w self) = Some W.
Hypothesis HS : num_val (s self) = Some S.
Hypothesis HE : num_val (ep_r self) = Some E.
Hypothesis HT : num_val (t self) = Some 0.
Hypothesis Wpos : 0 < W.
Hypothesis Spos : 0 < S.
Hypothesis Hrs : surface_resistivity (f self) (rho self) (VInt 1) = Ok (VArr rs).

Lemma zero_thickness_quotient (kv av : value) (k a : R) :
  num_val kv = Some k -> num_val av = Some a -> is_int av = false ->
  (lift2 old_div (#8 .* Ok pi .* Ok av .* (#1 .- Ok kv))
                 (Ok (t self) .* (#1 .+ Ok kv)))%py
  = Raise ZeroDivisionError.
Proof.
  intros Hk Ha Hai.
  destruct (binop_num Mul (VInt 8) pi 8 PI eq_refl eq_refl eq_refl) as (v1 & Hv1 & Hn1 & Hi1).
  destruct (binop_num Mul v1 av _ a eq_refl Hn1 Ha) as (v2 & Hv2 & Hn2 & Hi2).
  destruct (binop_num Sub (VInt 1) kv 1 k eq_refl eq_refl Hk) as (vm & Hvm & Hnm & _).
  destruct (binop_num Mul v2 vm _ _ eq_refl Hn2 Hnm) as (vn & Hvn & Hnn & Hin).
  destruct (binop_num Add (VInt 1) kv 1 k eq_refl eq_refl Hk) as (vq & Hvq & Hnq & _).
  destruct (binop_num Mul (t self) vq 0 _ eq_refl HT Hnq) as (vd & Hvd & Hnd & _).
  cbn [Rarith] in *.
  replace (0 * (1 + k)) with 0 in Hnd by ring.
  rewrite Hi2, Hai, andb_false_r in Hin.
  unfold lift2, mul, sub, add; cbn [bind].
  rewrite Hv1; cbn [bind]; rewrite Hv2; cbn [bind]; rewrite Hvm; cbn [bind].
  rewrite Hvn; cbn [bind]; rewrite Hvq; cbn [bind]; rewrite Hvd; cbn [bind].
  destruct vn; try discriminate; apply (truediv_num_zero _ _ _ Hnn Hnd).
Qed.

(** X21: a zero conductor thickness is no numpy division: [t*(1+k1)] is a Python
    zero, the quotient under the logarithm raises [ZeroDivisionError] and so
    does [alpha_conductor]. *)
Theorem alpha_conductor_zero_thickness :
  alpha_conductor ellipk surface_resistivity self = Raise ZeroDivisionError.
Proof.
  destruct (k1_valid_num self W S HW HS Wpos Spos) as (kv & k & Hk1 & Hkv & Hr).
  assert (Hnr : is_none (rho self) = false)
    by (destruct (rho self) eqn:Er; [congruence | reflexivity ..]).
  assert (Hnt : is_none (t self) = false)
    by (destruct (t self) eqn:Et; [discriminate HT | reflexivity ..]).
  unfold alpha_conductor; rewrite Hnr, Hnt; cbn [orb].
  rewrite Hk1, (ep_re_num self E HE), Hrs; cbn [bind].
  rewrite (old_div_float (w self) (VFloat 2) W 2 HW eq_refl)
    by (try apply andb_false_r; lra); cbn [bind].
  destruct (binop_num Add (s self) (VFloat (W / 2)) S (W / 2) eq_refl HS eq_refl)
    as (bv & Hbv & Hbn & Hbi); rewrite andb_false_r in Hbi.
  change (lift2 add (Ok (s self)) (Ok (VFloat (W / 2))))
    with (binop Add (s self) (VFloat (W / 2))).
  rewrite Hbv; cbn [bind].
  rewrite (zero_thickness_quotient kv (VFloat (W / 2)) k (W / 2) Hkv eq_refl eq_refl).
  (* the first factor is evaluated first, and returns *)
  assert (HD : exists d, (#480 .* Ok pi .* K ellipk kv .* K_p ellipk kv
                          .* (#1 .- Ok kv .** 2))%py = Ok (VNp d)).
  { pose proof (evals_ret (VInt 1) 1 eq_refl) as H1.
    pose proof (evals_ret kv k (num_val_scalar _ _ Hkv)) as Hk.
    pose proof (evals_pow _ _ _ 2 Hk) as Hk2.
    destruct (evals_sub _ _ _ _ _ _ H1 Hk2) as (vm & Hvm & Hms & _).
    unfold K, K_p; rewrite Hvm; unfold np_ellipk, np_sqrt, lift1, ufunc; cbn [bind].
    rewrite (as_ndarray_scalar _ _ Hms), (as_ndarray_scalar _ _ (num_val_scalar _ _ Hkv)).
    unfold lift2, mul, pi; cbn [bind binop py_float_arith Rarith as_ndarray np_arith].
    rewrite ?(as_ndarray_scalar _ _ Hms).
    destruct vm as [ | | | [ | ] | ]; try discriminate; eexists; reflexivity. }
  destruct HD as (d & ->).
  rewrite (np_sqrt_scalar (VFloat ((E + 1) / 2)) _ eq_refl).
  unfold lift2, mul, truediv, add, lift1.
  cbn [bind binop as_ndarray np_arith py_float_arith Rarith].
  destruct (Req_dec_T (W / 2) 0); [lra | reflexivity].
Qed.

End ZeroThickness.

(** ** Closed instances of the properties of [gamma] and [alpha_conductor] *)

Lemma gamma_phase_linear_witness :
  exists c, 0 < c /\
    c = 2 * PI * sqrt ((3 + 1) / 2 * epsilon_0_SI * mu_0_SI) /\
    gamma epsilon_0_SI mu_0_SI ellipk_at_zero unit_surface_resistivity (default_CPW [1; 2])
    = Ok (CArr (map (fun fr => (Finite 0, Finite (c * fr))) [1; 2])).
Proof.
  apply (gamma_phase_linear epsilon_0_SI mu_0_SI ellipk_at_zero unit_surface_resistivity
           (default_CPW [1; 2]) 3).
  - left; reflexivity.
  - reflexivity.
  - lra.
  - apply epsilon_0_SI_pos.
  - apply mu_0_SI_pos.
Defined.

Lemma gamma_lossless_ignores_widths_witness :
  gamma epsilon_0_SI mu_0_SI ellipk_at_zero unit_surface_resistivity
        (mkCPW [1; 2] VNone (VInt 70) (VInt 4) (VInt 3) VNone VNone)
  = gamma epsilon_0_SI mu_0_SI ellipk_at_zero unit_surface_resistivity
          (mkCPW [1; 2] (VInt 50) (VFloat 0) (VFloat 0) (VInt 3) VNone VNone).
Proof.
  apply (gamma_lossless_ignores_widths epsilon_0_SI mu_0_SI ellipk_at_zero
           unit_surface_resistivity [1; 2] VNone (VInt 50) (VInt 70) (VFloat 0)
           (VInt 4) (VFloat 0) (VInt 3) VNone VNone).
  left; reflexivity.
Defined.

Lemma gamma_zero_division_witness :
  alpha_conductor ellipk_at_zero unit_surface_resistivity
    (mkCPW [1; 2] VNone (VFloat 0) (VFloat 0) (VInt 3) (VFloat 1) (VFloat 1))
  = Raise ZeroDivisionError /\
  gamma epsilon_0_SI mu_0_SI ellipk_at_zero unit_surface_resistivity
    (mkCPW [1; 2] VNone (VFloat 0) (VFloat 0) (VInt 3) (VFloat 1) (VFloat 1))
  = Raise ZeroDivisionError.
Proof.
  apply (gamma_zero_division epsilon_0_SI mu_0_SI ellipk_at_zero unit_surface_resistivity
           (mkCPW [1; 2] VNone (VFloat 0) (VFloat 0) (VInt 3) (VFloat 1) (VFloat 1))
           0 0 3);
    try reflexivity; try discriminate; lra.
Defined.

Lemma gamma_length_mismatch_witness :
  gamma epsilon_0_SI mu_0_SI ellipk_at_zero unit_surface_resistivity
    (mkCPW [1; 2] VNone (VInt 70) (VInt 4) (VArr [Finite 1; Finite 2; Finite 3])
           VNone VNone)
  = Raise ValueError.
Proof.
  apply (gamma_length_mismatch epsilon_0_SI mu_0_SI ellipk_at_zero
           unit_surface_resistivity
           (mkCPW [1; 2] VNone (VInt 70) (VInt 4) (VArr [Finite 1; Finite 2; Finite 3])
                  VNone VNone)
           [Finite 1; Finite 2; Finite 3]);
    try reflexivity; simpl; lia.
Defined.

Lemma gamma_with_loss_witness :
  gamma epsilon_0_SI mu_0_SI ellipk_at_zero unit_surface_resistivity (lossy_CPW [1; 2])
  = Ok (CArr (zip_with
                (fun fr r_s =>
                   (Finite (attenuation r_s ((3 + 1) / 2) (PI / 2) (PI / 2) (35 / 39)
                              (70 / 1000000 / 2) (4 / 1000000 + 70 / 1000000 / 2)
                              (5 / 10000000)),
                    Finite (2 * PI * fr * sqrt ((3 + 1) / 2 * epsilon_0_SI * mu_0_SI))))
                [1; 2] [1; 1])).
Proof.
  pose proof PI_RGT_0; pose proof epsilon_0_SI_pos; pose proof mu_0_SI_pos.
  apply (gamma_with_loss epsilon_0_SI mu_0_SI ellipk_at_zero unit_surface_resistivity
           (lossy_CPW [1; 2]) (70 / 1000000) (4 / 1000000) 3 (5 / 10000000)
           (35 / 39) (PI / 2) (PI / 2) (VFloat (35 / 39)) [1; 1]);
    try reflexivity; try discriminate; try lra.
  apply lossy_k1.
Defined.

Lemma alpha_conductor_zero_thickness_witness :
  alpha_conductor ellipk_at_zero unit_surface_resistivity
    (mkCPW [1; 2] VNone (VFloat 1) (VFloat 1) (VInt 3) (VInt 0) (VFloat 1))
  = Raise ZeroDivisionError.
Proof.
  apply (alpha_conductor_zero_thickness ellipk_at_zero unit_surface_resistivity
           (mkCPW [1; 2] VNone (VFloat 1) (VFloat 1) (VInt 3) (VInt 0) (VFloat 1))
           1 1 3 [Finite 1; Finite 1]);
    try reflexivity; try discriminate; lra.
Defined.

(** * The modulus as the widths give it

    The statements above read the modulus off the [k1] accessor.  These tie
    it to the widths: [w/(w+2s)] when one of them is a float, its floor when
    both are ints. *)

(** ** Two int widths *)

Lemma exp_8_lower : 256 <= exp 8.
Proof.
  assert (H1 : 2 <= exp 1) by (pose proof (exp_ineq1_le 1); lra).
  assert (H2 : 4 <= exp (2 * 1)) by (rewrite exp_double; nra).
  assert (H4 : 16 <= exp (2 * (2 * 1))) by (rewrite exp_double; nra).
  assert (H8 : 256 <= exp (2 * (2 * (2 * 1)))) by (rewrite exp_double; nra).
  replace 8 with (2 * (2 * (2 * 1))) by ring; exact H8.
Qed.

Lemma ln_2_lt_1 : 0 < ln 2 < 1.
Proof.
  split; [pose proof ln_lt_2; lra | ].
  apply exp_lt_inv; rewrite exp_ln by lra.
  pose proof (exp_ineq1 1); lra.
Qed.

Lemma default_quotient_ratio :
  ln (log_arg (70 / (70 + 2 * 4))) / PI < 3.
Proof.
  pose proof PI_bounds as [Hp _].
  assert (Hs : 0 < sqrt (70 / (70 + 2 * 4)) < 98 / 100).
  { split; [apply sqrt_lt_R0; lra | ].
    rewrite <- (sqrt_square (98 / 100)) by lra; apply sqrt_lt_1; lra. }
  assert (Hx : 2 <= log_arg (70 / (70 + 2 * 4)) < 256).
  { split; [apply log_arg_ge_2; lra | ].
    rewrite log_arg_alt by lra.
    assert (/ (1 - sqrt (70 / (70 + 2 * 4))) < / (2 / 100)).
    { apply Rinv_lt_contravar; [apply Rmult_lt_0_compat | ]; lra. }
    unfold Rdiv at 1; lra. }
  assert (Hl : ln (log_arg (70 / (70 + 2 * 4))) < 8).
  { apply exp_lt_inv; rewrite exp_ln by lra; pose proof exp_8_lower; lra. }
  apply Rmult_lt_reg_r with PI; [lra | ].
  unfold Rdiv; rewrite Rmult_assoc, Rinv_l; lra.
Qed.

(** C1, on the code: the default model has the int widths 70 and 4, so
    [w/(w+2s) = 70/78] lies on the second branch, where the ratio should be
    [ln(2*(1+sqrt k)/(1-sqrt k)) / pi] at [k = 70/78]; the code floors the
    modulus to 0 and returns the first-branch value at 0, [pi / ln 2], which
    is another number. *)
Theorem K_ratio_default_modulus (fs : list R) :
  k1 (default_CPW fs) = Ok (VInt 0) /\
  K_ratio (default_CPW fs) = Ok (VNp (Finite (PI / ln 2))) /\
  1 / sqrt 2 < 70 / (70 + 2 * 4) <= 1 /\
  PI / ln 2
  <> ln (2 * (1 + sqrt (70 / (70 + 2 * 4))) / (1 - sqrt (70 / (70 + 2 * 4)))) / PI.
Proof.
  pose proof inv_sqrt2_approx as Hb; pose proof inv_sqrt2_bounds.
  pose proof ln_2_lt_1 as [Hl0 Hl1]; pose proof PI_bounds as [Hp _].
  assert (Hk1 : k1 (default_CPW fs) = Ok (VInt 0)) by reflexivity.
  repeat split; try lra.
  - rewrite <- log_arg_zero.
    apply (K_ratio_low (default_CPW fs) (VInt 0) 0 Hk1 eq_refl); lra.
  - pose proof default_quotient_ratio as Hq; unfold log_arg in Hq.
    assert (Hbig : 3 < PI / ln 2).
    { apply Rmult_lt_reg_r with (ln 2); [lra | ].
      unfold Rdiv; rewrite Rmult_assoc, Rinv_l; nra. }
    lra.
Qed.

(** X22: the true half of the same statement: as soon as one of the scalar
    widths is a float, the ratio is the two-branch formula at
    [k = w/(w+2s)]; at [k = 1] the logarithm's argument divides by zero and
    the sample is not finite. *)
Theorem K_ratio_float_widths (self : CPW) (a b : R) :
  num_val (w self) = Some a -> num_val (s self) = Some b ->
  is_int (w self) && is_int (s self) = false -> a + 2 * b <> 0 ->
  0 <= a / (a + 2 * b) <= 1 ->
  (a / (a + 2 * b) <= 1 / sqrt 2 ->
   K_ratio self
   = Ok (VNp (Finite (PI / ln (2 * (1 + sqrt (a / (a + 2 * b)))
                                 / (1 - sqrt (a / (a + 2 * b)))))))) /\
  (1 / sqrt 2 < a / (a + 2 * b) -> a / (a + 2 * b) < 1 ->
   K_ratio self
   = Ok (VNp (Finite (ln (2 * (1 + sqrt (a / (a + 2 * b)))
                          / (1 - sqrt (a / (a + 2 * b)))) / PI)))) /\
  (a / (a + 2 * b) = 1 -> K_ratio self = Ok (VNp NonFinite)).
Proof.
  intros Hw Hs Hi Hd [H0 H1].
  pose proof (k1_float self a b Hw Hs Hi Hd) as Hk1.
  repeat split.
  - intros H; apply (K_ratio_low self _ _ Hk1 eq_refl); lra.
  - intros Hl Hu; apply (K_ratio_high self _ _ Hk1 eq_refl); lra.
  - apply (K_ratio_one self _ _ Hk1 eq_refl).
Qed.

Lemma K_ratio_float_widths_witness :
  K_ratio (micro_CPW [1])
  = Ok (VNp (Finite
       (ln (2 * (1 + sqrt (70 / 1000000 / (70 / 1000000 + 2 * (4 / 1000000))))
            / (1 - sqrt (70 / 1000000 / (70 / 1000000 + 2 * (4 / 1000000))))) / PI))).
Proof.
  pose proof inv_sqrt2_approx.
  destruct (K_ratio_float_widths (micro_CPW [1]) (70 / 1000000) (4 / 1000000))
    as (_ & Hhigh & _); try reflexivity; try lra.
  apply Hhigh; lra.
Defined.





(** X23: with [t] and [rho] set and positive scalar widths, one of them a
    float, every sample of [alpha_conductor] is the attenuation formula at
    the modulus [k = w/(w+2s)], with [a = w/2] and [b = s + w/2], provided
    the two integrals are finite and not zero there. *)
Theorem alpha_conductor_float_widths
  (surface_resistivity : value -> value -> value -> result value)
  (ellipk : R -> float) (self : CPW) (W S E T K1 K2 : R) (rs : list R) :
  rho self <> VNone ->
  num_val (w self) = Some W -> num_val (s self) = Some S ->
  is_int (w self) && is_int (s self) = false ->
  num_val (ep_r self) = Some E -> num_val (t self) = Some T ->
  0 < W -> 0 < S -> 0 < T -> -1 <= E ->
  surface_resistivity (f self) (rho self) (VInt 1) = Ok (VArr (map Finite rs)) ->
  ellipk (W / (W + 2 * S)) = Finite K1 ->
  ellipk (sqrt (1 - (W / (W + 2 * S)) ^ 2)) = Finite K2 ->
  K1 <> 0 -> K2 <> 0 ->
  alpha_conductor ellipk surface_resistivity self
  = Ok (VArr (map (fun r_s => Finite (attenuation r_s ((E + 1) / 2) K1 K2
                                                  (W / (W + 2 * S))
                                                  (W / 2) (S + W / 2) T))
                  rs)).
Proof.
  intros Hrho HW HS Hi HE HT Wpos Spos Tpos Ege Hrs HK1 HK2 K1nz K2nz.
  apply (alpha_conductor_value ellipk surface_resistivity self W S E T
           (W / (W + 2 * S)) K1 K2 (VFloat (W / (W + 2 * S))) rs);
    try assumption; [ | reflexivity].
  apply k1_float; try assumption; lra.
Qed.

Lemma alpha_conductor_float_widths_witness :
  alpha_conductor ellipk_at_zero unit_surface_resistivity (lossy_CPW [1; 2])
  = Ok (VArr (map (fun r_s =>
                     Finite (attenuation r_s ((3 + 1) / 2) (PI / 2) (PI / 2)
                               (70 / 1000000 / (70 / 1000000 + 2 * (4 / 1000000)))
                               (70 / 1000000 / 2) (4 / 1000000 + 70 / 1000000 / 2)
                               (5 / 10000000)))
                  [1; 1])).
Proof.
  pose proof PI_RGT_0.
  apply (alpha_conductor_float_widths unit_surface_resistivity ellipk_at_zero
           (lossy_CPW [1; 2]) (70 / 1000000) (4 / 1000000) 3 (5 / 10000000)
           (PI / 2) (PI / 2) [1; 1]);
    try reflexivity; try discriminate; lra.
Defined.

(** ** The branch point, more closely

    Thirty squarings bracket [ln (log_arg (1/sqrt 2)) - pi] between 6.5e-6
    and 8e-6, and so the distance of the two formulas there. *)

Lemma exp_PI_gap_lower : exp (PI + 65 / 10000000) < 23140851 / 1000000.
Proof.
  pose proof PI_bounds as [_ Hpi].
  apply Rlt_le_trans with (exp (31415992 / 10000000)); [apply exp_increasing; lra | ].
  replace (31415992 / 10000000) with (2 ^ 30 * (31415992 / (10000000 * 2 ^ 30)))
    by (field; apply pow_nonzero; lra).
  eapply Rle_trans.
  - apply (exp_iterate_up 30 _ 1000000002925842265).
    eapply Rle_trans; [apply exp_below | ]; unfold scale; simpl; lra.
  - replace (iterate 30 square_up 1000000002925842265) with 23140844266590049514%Z
      by (vm_compute; reflexivity).
    unfold scale; simpl; lra.
Qed.

Lemma exp_PI_gap_upper : 23140868 / 1000000 < exp (PI + 8 / 1000000).
Proof.
  pose proof PI_bounds as [Hpi _].
  apply Rle_lt_trans with (exp (31416006 / 10000000)); [ | apply exp_increasing; lra].
  replace (31416006 / 10000000) with (2 ^ 30 * (31416006 / (10000000 * 2 ^ 30)))
    by (field; apply pow_nonzero; lra).
  eapply Rle_trans.
  2:{ apply (exp_iterate_down 30 _ 1000000002925843558); [lia | ].
      eapply Rle_trans; [ | apply exp_ineq1_le]; unfold scale; simpl; lra. }
  replace (iterate 30 square_down 1000000002925843558) with 23140876369319183534%Z
    by (vm_compute; reflexivity).
  unfold scale; simpl; lra.
Qed.

Lemma ln_branch_point_close :
  PI + 65 / 10000000 < ln (log_arg (1 / sqrt 2)) < PI + 8 / 1000000.
Proof.
  pose proof log_arg_branch_point as [Hl Hu].
  pose proof exp_PI_gap_lower; pose proof exp_PI_gap_upper.
  assert (Hx : 0 < log_arg (1 / sqrt 2)) by lra.
  split; apply exp_lt_inv; rewrite (exp_ln _ Hx); lra.
Qed.

Lemma branch_point_gap :
  4 / 1000000
  < ln (log_arg (1 / sqrt 2)) / PI - PI / ln (log_arg (1 / sqrt 2))
  < 6 / 1000000.
Proof.
  pose proof ln_branch_point_close as [Hl Hu]; pose proof PI_bounds as [Hp Hq].
  set (L := ln (log_arg (1 / sqrt 2))) in *.
  assert (HL : 0 < L) by lra.
  assert (E : L / PI - PI / L = (L - PI) * (L + PI) / (PI * L)) by (field; lra).
  assert (Hd : 0 < PI * L) by (apply Rmult_lt_0_compat; lra).
  rewrite E; split.
  - apply Rmult_lt_reg_r with (PI * L); [exact Hd | ].
    unfold Rdiv at 2; rewrite Rmult_assoc, Rinv_l by lra.
    nra.
  - apply Rmult_lt_reg_r with (PI * L); [exact Hd | ].
    unfold Rdiv at 1; rewrite Rmult_assoc, Rinv_l by lra.
    nra.
Qed.

Lemma widths_modulus_range (a b : R) : 0 < a -> 0 < b -> 0 < a / (a + 2 * b) < 1.
Proof.
  intros Ha Hb; split; [apply Rdiv_lt_0_compat; lra | ].
  apply Rmult_lt_reg_r with (a + 2 * b); [lra | ].
  unfold Rdiv; rewrite Rmult_assoc, Rinv_l; lra.
Qed.

Lemma widths_first_branch (self : CPW) (a b : R) :
  num_val (w self) = Some a -> num_val (s self) = Some b ->
  is_int (w self) && is_int (s self) = false -> 0 < a -> 0 < b ->
  a / (a + 2 * b) <= 1 / sqrt 2 ->
  K_ratio self = Ok (VNp (Finite (PI / ln (log_arg (a / (a + 2 * b)))))).
Proof.
  intros Hw Hs Hi Ha Hb Hm; pose proof (widths_modulus_range a b Ha Hb).
  assert (Hk1 := k1_float self a b Hw Hs Hi ltac:(lra)).
  apply (K_ratio_low self _ _ Hk1 eq_refl); lra.
Qed.

Lemma widths_second_branch (self : CPW) (a b : R) :
  num_val (w self) = Some a -> num_val (s self) = Some b ->
  is_int (w self) && is_int (s self) = false -> 0 < a -> 0 < b ->
  1 / sqrt 2 < a / (a + 2 * b) ->
  K_ratio self = Ok (VNp (Finite (ln (log_arg (a / (a + 2 * b))) / PI))).
Proof.
  intros Hw Hs Hi Ha Hb Hm; pose proof (widths_modulus_range a b Ha Hb).
  assert (Hk1 := k1_float self a b Hw Hs Hi ltac:(lra)).
  apply (K_ratio_high self _ _ Hk1 eq_refl); lra.
Qed.

Lemma log_arg_inverse (x : R) :
  2 < x -> 0 < ((x - 2) / (x + 2)) ^ 2 < 1 /\ log_arg (((x - 2) / (x + 2)) ^ 2) = x.
Proof.
  intros Hx.
  assert (Hq : 0 < (x - 2) / (x + 2) < 1).
  { split; [apply Rdiv_lt_0_compat; lra | ].
    apply Rmult_lt_reg_r with (x + 2); [lra | ].
    unfold Rdiv; rewrite Rmult_assoc, Rinv_l; lra. }
  set (q := (x - 2) / (x + 2)) in *.
  split; [nra | ].
  unfold log_arg; rewrite sqrt_pow2 by lra.
  unfold q; field; split; lra.
Qed.

Lemma log_arg_reflects (k k' : R) :
  0 <= k < 1 -> 0 <= k' < 1 -> log_arg k < log_arg k' -> k < k'.
Proof.
  intros Hk Hk' H; destruct (Rlt_or_le k k') as [Hlt | [Hgt | Heq]]; [exact Hlt | | ].
  - pose proof (log_arg_increasing k' k); lra.
  - subst k'; lra.
Qed.

Lemma first_branch_approach (eps : R) :
  0 < eps ->
  exists k, 0 < k < 1 / sqrt 2 /\
            PI / ln (log_arg k) < PI / ln (log_arg (1 / sqrt 2)) + eps.
Proof.
  intros Heps; pose proof ln_branch_point as [Hl Hu]; pose proof PI_bounds as [Hp Hq].
  pose proof inv_sqrt2_approx as Hr; pose proof log_arg_branch_point as [Hx0 _].
  set (L := ln (log_arg (1 / sqrt 2))) in *.
  set (eta := Rmin 1 eps).
  assert (He : 0 < eta <= 1 /\ eta <= eps).
  { unfold eta; pose proof (Rmin_l 1 eps); pose proof (Rmin_r 1 eps).
    repeat split; try assumption; apply Rmin_glb_lt; lra. }
  assert (Hx : 2 < exp (L - eta)) by (pose proof (exp_ineq1 (L - eta)); lra).
  assert (Hlt : exp (L - eta) < log_arg (1 / sqrt 2)).
  { rewrite <- (exp_ln (log_arg (1 / sqrt 2))) by lra; apply exp_increasing; fold L; lra. }
  destruct (log_arg_inverse _ Hx) as [Hk Hlog].
  exists (((exp (L - eta) - 2) / (exp (L - eta) + 2)) ^ 2); split.
  - split; [lra | apply log_arg_reflects; lra].
  - rewrite Hlog, ln_exp.
    assert (E : PI / (L - eta) - PI / L - eta
                = eta * (PI - L * (L - eta)) / (L * (L - eta))) by (field; lra).
    assert (Hd : 0 < L * (L - eta)) by (apply Rmult_lt_0_compat; lra).
    assert (Hn : eta * (PI - L * (L - eta)) / (L * (L - eta)) < 0).
    { apply Rmult_lt_reg_r with (L * (L - eta)); [exact Hd | ].
      unfold Rdiv; rewrite Rmult_assoc, Rinv_l by lra.
      assert (H6 : 6 < L * (L - eta)) by nra.
      assert (0 < eta * (L * (L - eta) - PI)) by (apply Rmult_lt_0_compat; lra).
      lra. }
    lra.
Qed.

Lemma second_branch_approach (eps : R) :
  0 < eps ->
  exists k, 1 / sqrt 2 < k < 1 /\
            ln (log_arg k) / PI < ln (log_arg (1 / sqrt 2)) / PI + eps.
Proof.
  intros Heps; pose proof ln_branch_point as [Hl Hu]; pose proof PI_bounds as [Hp Hq].
  pose proof inv_sqrt2_approx as Hr; pose proof log_arg_branch_point as [Hx0 _].
  set (L := ln (log_arg (1 / sqrt 2))) in *.
  assert (Hgt : log_arg (1 / sqrt 2) < exp (L + eps * PI / 2)).
  { rewrite <- (exp_ln (log_arg (1 / sqrt 2))) at 1 by lra.
    apply exp_increasing; fold L; nra. }
  assert (Hx : 2 < exp (L + eps * PI / 2)) by lra.
  destruct (log_arg_inverse _ Hx) as [Hk Hlog].
  exists (((exp (L + eps * PI / 2) - 2) / (exp (L + eps * PI / 2) + 2)) ^ 2); split.
  - split; [apply log_arg_reflects; lra | lra].
  - rewrite Hlog, ln_exp.
    replace ((L + eps * PI / 2) / PI) with (L / PI + eps / 2) by (field; lra).
    lra.
Qed.

(** C6 as stated fails: at the branch point the ratio is the first formula,
    and widths whose modulus is as close to [1/sqrt 2] as one likes, from
    above, give a ratio more than 4e-6 larger: [K_ratio] is not continuous
    there. *)
Lemma K_ratio_discontinuous_at_branch_point :
  1 / (1 + 2 * ((sqrt 2 - 1) / 2)) = 1 / sqrt 2 /\
  K_ratio (float_CPW [1] 1 ((sqrt 2 - 1) / 2))
  = Ok (VNp (Finite (PI / ln (log_arg (1 / sqrt 2))))) /\
  forall delta, 0 < delta ->
    exists a b r,
      0 < a /\ 0 < b /\
      Rabs (a / (a + 2 * b) - 1 / (1 + 2 * ((sqrt 2 - 1) / 2))) < delta /\
      K_ratio (float_CPW [1] a b) = Ok (VNp (Finite r)) /\
      4 / 1000000 < r - PI / ln (log_arg (1 / sqrt 2)).
Proof.
  pose proof sqrt2_pos as H2; pose proof inv_sqrt2_approx as Hr.
  assert (Hm : 1 / (1 + 2 * ((sqrt 2 - 1) / 2)) = 1 / sqrt 2) by (f_equal; lra).
  assert (H12 : 1 < sqrt 2).
  { rewrite <- sqrt_1 at 1; apply sqrt_lt_1; lra. }
  split; [exact Hm | split].
  - rewrite (widths_first_branch (float_CPW [1] 1 ((sqrt 2 - 1) / 2))
               1 ((sqrt 2 - 1) / 2)) by first [reflexivity | lra].
    rewrite Hm; reflexivity.
  - intros delta Hd; rewrite Hm.
    set (h := Rmin delta (1 / 4) / 2).
    assert (Hh : 0 < h < delta /\ h <= 1 / 8).
    { unfold h; pose proof (Rmin_l delta (1 / 4)); pose proof (Rmin_r delta (1 / 4)).
      assert (0 < Rmin delta (1 / 4)) by (apply Rmin_glb_lt; lra).
      lra. }
    assert (Hk : (1 / sqrt 2 + h) / (1 / sqrt 2 + h + 2 * ((1 - (1 / sqrt 2 + h)) / 2))
                 = 1 / sqrt 2 + h) by (field; lra).
    exists (1 / sqrt 2 + h), ((1 - (1 / sqrt 2 + h)) / 2),
           (ln (log_arg (1 / sqrt 2 + h)) / PI).
    split; [lra | split; [lra | split; [ | split]]].
    + rewrite Hk; replace (1 / sqrt 2 + h - 1 / sqrt 2) with h by ring.
      rewrite Rabs_pos_eq; lra.
    + rewrite (widths_second_branch
                 (float_CPW [1] (1 / sqrt 2 + h) ((1 - (1 / sqrt 2 + h)) / 2))
                 (1 / sqrt 2 + h) ((1 - (1 / sqrt 2 + h)) / 2))
        by first [reflexivity | lra].
      rewrite Hk; reflexivity.
    + pose proof branch_point_gap as [Hg _].
      pose proof (second_branch_increasing (1 / sqrt 2) (1 / sqrt 2 + h)).
      lra.
Qed.

(** C6, amended: the two formulas do not agree at [k1 = 1/sqrt 2]; the second
    is larger there by a gap between 4e-6 and 6e-6, and [K_ratio] is
    continuous across the switch up to that gap and no better.  For every
    [eps > 0] there is a [delta > 0] such that, for positive scalar widths,
    one of them a float, with [|w/(w+2s) - 1/sqrt 2| < delta]: up to the
    branch point the ratio is the first formula and within [eps] of its value
    at the branch point; past it the ratio is the second formula and exceeds
    that value by more than 4e-6 and less than [6e-6 + eps]. *)
Theorem K_ratio_branch_point_gap (eps : R) :
  0 < eps ->
  exists delta, 0 < delta /\
    forall (self : CPW) (a b : R),
      num_val (w self) = Some a -> num_val (s self) = Some b ->
      is_int (w self) && is_int (s self) = false -> 0 < a -> 0 < b ->
      Rabs (a / (a + 2 * b) - 1 / sqrt 2) < delta ->
      exists r,
        K_ratio self = Ok (VNp (Finite r)) /\
        (a / (a + 2 * b) <= 1 / sqrt 2 ->
         r = PI / ln (2 * (1 + sqrt (a / (a + 2 * b))) / (1 - sqrt (a / (a + 2 * b)))) /\
         0 <= r - PI / ln (2 * (1 + sqrt (1 / sqrt 2)) / (1 - sqrt (1 / sqrt 2))) < eps) /\
        (1 / sqrt 2 < a / (a + 2 * b) ->
         r = ln (2 * (1 + sqrt (a / (a + 2 * b))) / (1 - sqrt (a / (a + 2 * b)))) / PI /\
         4 / 1000000
         < r - PI / ln (2 * (1 + sqrt (1 / sqrt 2)) / (1 - sqrt (1 / sqrt 2)))
         < 6 / 1000000 + eps).
Proof.
  intros Heps.
  change (fun x => 2 * (1 + sqrt x) / (1 - sqrt x)) with log_arg.
  destruct (first_branch_approach eps Heps) as (kl & Hkl & Hfl).
  destruct (second_branch_approach eps Heps) as (kr & Hkr & Hfr).
  pose proof branch_point_gap as [Hg4 Hg6]; pose proof inv_sqrt2_approx as Hr.
  exists (Rmin (1 / sqrt 2 - kl) (kr - 1 / sqrt 2)); split.
  { apply Rmin_glb_lt; lra. }
  intros self a b Hw Hs Hi Ha Hb Hclose.
  pose proof (widths_modulus_range a b Ha Hb) as Hm.
  set (m := a / (a + 2 * b)) in *.
  assert (Hbox : kl < m < kr).
  { pose proof (Rmin_l (1 / sqrt 2 - kl) (kr - 1 / sqrt 2)).
    pose proof (Rmin_r (1 / sqrt 2 - kl) (kr - 1 / sqrt 2)).
    apply Rabs_def2 in Hclose; lra. }
  fold (log_arg m); fold (log_arg (1 / sqrt 2)).
  destruct (Rle_or_lt m (1 / sqrt 2)) as [Hle | Hgt].
  - exists (PI / ln (log_arg m)); split; [ | split; [ | lra]].
    + apply (widths_first_branch self a b); assumption.
    + intros _; split; [reflexivity | ].
      pose proof (first_branch_decreasing kl m).
      destruct Hle as [Hlt | Heq]; [ | rewrite Heq; lra].
      pose proof (first_branch_decreasing m (1 / sqrt 2)); lra.
  - exists (ln (log_arg m) / PI); split; [ | split; [lra | ]].
    + apply (widths_second_branch self a b); assumption.
    + intros _; split; [reflexivity | ].
      pose proof (second_branch_increasing (1 / sqrt 2) m).
      destruct (Req_dec m kr) as [Heq | Hne]; [lra | ].
      pose proof (second_branch_increasing m kr); lra.
Qed.

Lemma K_ratio_branch_point_gap_witness :
  exists delta, 0 < delta /\
    forall (self : CPW) (a b : R),
      num_val (w self) = Some a -> num_val (s self) = Some b ->
      is_int (w self) && is_int (s self) = false -> 0 < a -> 0 < b ->
      Rabs (a / (a + 2 * b) - 1 / sqrt 2) < delta ->
      exists r,
        K_ratio self = Ok (VNp (Finite r)) /\
        (a / (a + 2 * b) <= 1 / sqrt 2 ->
         r = PI / ln (2 * (1 + sqrt (a / (a + 2 * b))) / (1 - sqrt (a / (a + 2 * b)))) /\
         0 <= r - PI / ln (2 * (1 + sqrt (1 / sqrt 2)) / (1 - sqrt (1 / sqrt 2)))
         < 1 / 1000000) /\
        (1 / sqrt 2 < a / (a + 2 * b) ->
         r = ln (2 * (1 + sqrt (a / (a + 2 * b))) / (1 - sqrt (a / (a + 2 * b)))) / PI /\
         4 / 1000000
         < r - PI / ln (2 * (1 + sqrt (1 / sqrt 2)) / (1 - sqrt (1 / sqrt 2)))
         < 6 / 1000000 + 1 / 1000000).
Proof. apply (K_ratio_branch_point_gap (1 / 1000000)); lra. Defined.

(** ** Widths whose quotient is outside [0,1] *)



